(** * DocuQuery-AI: the retrieval-augmented question-answering core

    A shallow embedding of [backend/utils.py] and of the cache-handling
    endpoints of [backend/main.py], with the properties of the
    natural-language specification stated and settled against it.

    Conventions.
    - A Python [str] is a list of Unicode code points ([char := N]).
    - A Python [int] is a [Z].
    - Functions that may raise return a [result]; the [try]/[except]
      blocks of the source are written out. Calls to [logger] are left out.
    - The neural models, the tensor library and the Unicode character
      database are external to the repository: they appear as parameters
      (the type classes [UnicodeData] and [Models]), together with the part
      of their documented contract that a property relies on.
    - The file system is external too: whether the uploaded file could be
      written, and whether the stored file could be removed, are arguments
      of the endpoints that do so.
    - The endpoints are run one after another: [ask_question] and
      [delete_document] contain no [await], and [upload_pdf] none after the
      file is saved, so the event loop does not interleave them. *)

From Stdlib Require Import ZArith NArith Ascii String Lia.
From stdpp Require Import base numbers option list sorting gmap.

Local Open Scope Z_scope.

(** ** Characters and strings *)

Definition char := N.
Definition str := list char.

(** ASCII literals of the source, as code-point lists. *)
Fixpoint u (s : string) : str :=
  match s with
  | EmptyString => []
  | String a s' => N_of_ascii a :: u s'
  end.

(** [str.isspace] on one character, which is also the class [\s] of the
    [re] module on [str] patterns (the complete table of CPython). *)
Definition isspace (c : char) : bool :=
  ((0x09 <=? c) && (c <=? 0x0D) || (0x1C <=? c) && (c <=? 0x20)
   || (c =? 0x85) || (c =? 0xA0) || (c =? 0x1680)
   || (0x2000 <=? c) && (c <=? 0x200A)
   || (c =? 0x2028) || (c =? 0x2029) || (c =? 0x202F)
   || (c =? 0x205F) || (c =? 0x3000))%N.

(** [s.split()]: the maximal runs of non-whitespace characters. [acc] holds
    the word being read, reversed. *)
Fixpoint split_go (acc : list char) (s : str) : list str :=
  match s with
  | [] => match acc with [] => [] | _ => [rev acc] end
  | c :: s' =>
      if isspace c
      then match acc with
           | [] => split_go [] s'
           | _ => rev acc :: split_go [] s'
           end
      else split_go (c :: acc) s'
  end.

Definition split (s : str) : list str := split_go [] s.

(** [s.split(sep)] for a one-character separator. *)
Fixpoint split_on (sep : char) (s : str) : list str :=
  match s with
  | [] => [[]]
  | c :: s' =>
      if (c =? sep)%N then [] :: split_on sep s'
      else match split_on sep s' with
           | h :: t => (c :: h) :: t
           | [] => [[c]]
           end
  end.

(** [sep.join(parts)]. *)
Fixpoint join (sep : str) (parts : list str) : str :=
  match parts with
  | [] => []
  | [p] => p
  | p :: rest => p ++ sep ++ join sep rest
  end.

Fixpoint lstrip (s : str) : str :=
  match s with
  | c :: s' => if isspace c then lstrip s' else s
  | [] => []
  end.

(** [s.strip()]. *)
Definition strip (s : str) : str := rev (lstrip (rev (lstrip s))).

(** [s.endswith(p)] for a one-character [p]. *)
Definition endswith_char (s : str) (p : char) : bool :=
  match rev s with
  | c :: _ => (c =? p)%N
  | [] => false
  end.

(** [p in s] for a one-character [p]. *)
Definition contains_char (p : char) (s : str) : bool :=
  existsb (fun c => (c =? p)%N) s.

(** ** The Unicode character database

    [unicodedata] and the Unicode-aware classes of [re] read tables that are
    not part of the repository. *)

Inductive normal_form := NFC | NFD | NFKC | NFKD.

Class UnicodeData := {
  (** [\d]: decimal digits (category Nd) *)
  uc_isdecimal : char -> bool;
  (** [str.isalnum]; [\w] is this or an underscore *)
  uc_isalnum : char -> bool;
  (** [str.isalpha] *)
  uc_isalpha : char -> bool;
  (** [str.upper] of a one-character string *)
  uc_upper : char -> str;
  (** [unicodedata.category(c)[0] == 'C'] *)
  uc_category_C : char -> bool;
  (** [unicodedata.normalize(form, s)] *)
  uc_normalize : normal_form -> str -> str
}.

(** ** A backtracking matcher for the [re] patterns of the source *)

Module Re.

Inductive cclass :=
  | CChar (c : char)
  | CRange (lo hi : char)
  | CSpace      (* \s *)
  | CDigit.     (* \d *)

Inductive regex :=
  | Eps
  | Lit (c : char)
  | Any                                   (* .  (no DOTALL) *)
  | Set_ (negate : bool) (items : list cclass)   (* [...] and [^...] *)
  | Seq (r1 r2 : regex)
  | Alt (r1 r2 : regex)
  | Opt (r : regex)                       (* r? *)
  | Star (r : regex)                      (* r*, greedy *)
  | Plus (r : regex)                      (* r+, greedy *)
  | Group (n : nat) (r : regex)           (* n-th capturing group *)
  | Backref (n : nat)                     (* \n *)
  | Lookbehind (items : list cclass)      (* (?<=[...]) *)
  | Bol                                   (* ^  (no MULTILINE) *)
  | WordB.                                (* \b *)

(** A position in the subject: the text before it (reversed), the text
    after it, and the groups captured so far. *)
Record mstate := MState {
  m_before : list char;
  m_after : list char;
  m_groups : list (nat * str)
}.

Definition ascii_lower (c : char) : char :=
  if ((0x41 <=? c) && (c <=? 0x5A))%N then (c + 0x20)%N else c.

(** Whether the ASCII pattern literal [x] matches the character [c] under
    [re.IGNORECASE]: the two cases of a letter, and the three characters
    that the module additionally folds onto [i], [s] and [k]. *)
Definition caseless (x c : char) : bool :=
  let lx := ascii_lower x in
  ((ascii_lower c =? lx)
   || (lx =? 0x69) && ((c =? 0x130) || (c =? 0x131))
   || (lx =? 0x73) && (c =? 0x17F)
   || (lx =? 0x6B) && (c =? 0x212A))%N.

Section Matcher.
Context `{UnicodeData}.

Definition in_cclass (c : char) (i : cclass) : bool :=
  match i with
  | CChar x => (c =? x)%N
  | CRange lo hi => ((lo <=? c) && (c <=? hi))%N
  | CSpace => isspace c
  | CDigit => uc_isdecimal c
  end.

Definition in_set (negate : bool) (items : list cclass) (c : char) : bool :=
  xorb negate (existsb (in_cclass c) items).

Definition is_word (c : char) : bool := uc_isalnum c || (c =? 0x5F)%N.

Definition advance (c : char) (rest : list char) (s : mstate) : mstate :=
  MState (c :: m_before s) rest (m_groups s).

(** The characters consumed between two positions of the same subject. *)
Definition consumed (s s' : mstate) : str :=
  rev (take (length (m_before s') - length (m_before s))%nat (m_before s')).

Fixpoint lookup_group (n : nat) (gs : list (nat * str)) : option str :=
  match gs with
  | [] => None
  | (k, v) :: gs' => if (k =? n)%nat then Some v else lookup_group n gs'
  end.

Definition set_group (n : nat) (v : str) (s : mstate) : mstate :=
  MState (m_before s) (m_after s) ((n, v) :: m_groups s).

(** Match the literal text [t] at the position [s]. *)
Fixpoint match_text (t : str) (s : mstate) : option mstate :=
  match t with
  | [] => Some s
  | x :: t' =>
      match m_after s with
      | c :: rest => if (c =? x)%N then match_text t' (advance c rest s) else None
      | [] => None
      end
  end.

Definition one_char (p : char -> bool) (s : mstate)
    (k : mstate -> option mstate) : option mstate :=
  match m_after s with
  | c :: rest => if p c then k (advance c rest s) else None
  | [] => None
  end.

(** [rmatch ic r s k]: match [r] at [s], then the rest of the pattern [k];
    alternatives are tried in the order of the [re] module (greedy
    repetition first, left alternative first). A repetition goes on as
    long as its body consumes input. [ic] is [re.IGNORECASE]; the one
    pattern compiled with it has no letters in its classes. *)
Fixpoint rmatch (ic : bool) (r : regex) (s : mstate)
    (k : mstate -> option mstate) {struct r} : option mstate :=
  match r with
  | Eps => k s
  | Lit x => one_char (fun c => if ic then caseless x c else (c =? x)%N) s k
  | Any => one_char (fun c => negb (c =? 0x0A)%N) s k
  | Set_ negate items => one_char (in_set negate items) s k
  | Seq r1 r2 => rmatch ic r1 s (fun s' => rmatch ic r2 s' k)
  | Alt r1 r2 =>
      match rmatch ic r1 s k with
      | Some m => Some m
      | None => rmatch ic r2 s k
      end
  | Opt r1 =>
      match rmatch ic r1 s k with
      | Some m => Some m
      | None => k s
      end
  | Star r1 =>
      (fix loop (fuel : nat) (s : mstate) {struct fuel} : option mstate :=
         match fuel with
         | O => k s
         | S fuel' =>
             match rmatch ic r1 s (fun s' =>
                     if (length (m_after s') <? length (m_after s))%nat
                     then loop fuel' s' else None) with
             | Some m => Some m
             | None => k s
             end
         end) (length (m_after s)) s
  | Plus r1 =>
      rmatch ic r1 s (fun s1 =>
        (fix loop (fuel : nat) (s : mstate) {struct fuel} : option mstate :=
           match fuel with
           | O => k s
           | S fuel' =>
               match rmatch ic r1 s (fun s' =>
                       if (length (m_after s') <? length (m_after s))%nat
                       then loop fuel' s' else None) with
               | Some m => Some m
               | None => k s
               end
           end) (length (m_after s1)) s1)
  | Group n r1 => rmatch ic r1 s (fun s' => k (set_group n (consumed s s') s'))
  | Backref n =>
      match lookup_group n (m_groups s) with
      | Some t => match match_text t s with Some s' => k s' | None => None end
      | None => None
      end
  | Lookbehind items =>
      match m_before s with
      | c :: _ => if in_set false items c then k s else None
      | [] => None
      end
  | Bol => match m_before s with [] => k s | _ => None end
  | WordB =>
      let w l := match l with c :: _ => is_word c | [] => false end in
      if xorb (w (m_before s)) (w (m_after s)) then k s else None
  end.

(** All non-overlapping matches, leftmost first, each with the text that
    precedes it since the previous match; and the text after the last one.
    [skip] counts the characters of a match still to be passed over, [seg]
    is the text since the previous match (reversed). *)
Fixpoint finditer_go (ic : bool) (pat : regex) (before after : list char)
    (skip : nat) (seg : list char) : list (str * mstate) * str :=
  match skip with
  | S n =>
      match after with
      | c :: rest => finditer_go ic pat (c :: before) rest n seg
      | [] => ([], rev seg)
      end
  | O =>
      match rmatch ic pat (MState before after []) Some with
      | Some m =>
          let w := (length after - length (m_after m))%nat in
          let '(ms, tl) :=
            match after with
            | c :: rest =>
                match w with
                | O => finditer_go ic pat (c :: before) rest O [c]
                | S w' => finditer_go ic pat (c :: before) rest w' []
                end
            | [] => ([], [])
            end in
          ((rev seg, m) :: ms, tl)
      | None =>
          match after with
          | c :: rest => finditer_go ic pat (c :: before) rest O (c :: seg)
          | [] => ([], rev seg)
          end
      end
  end.

Definition finditer (ic : bool) (pat : regex) (s : str) :
    list (str * mstate) * str :=
  finditer_go ic pat [] s O [].

(** Replacement templates: literal characters and [\n] group references. *)
Inductive titem := TChar (c : char) | TGroup (n : nat).

Definition expand (tmpl : list titem) (m : mstate) : str :=
  flat_map (fun t => match t with
                     | TChar c => [c]
                     | TGroup n => default [] (lookup_group n (m_groups m))
                     end) tmpl.

(** [re.sub(pat, tmpl, s)] *)
Definition sub (ic : bool) (pat : regex) (tmpl : list titem) (s : str) : str :=
  let '(ms, tl) := finditer ic pat s in
  flat_map (fun pm => fst pm ++ expand tmpl (snd pm)) ms ++ tl.

(** [re.split(pat, s)], for a pattern without capturing groups *)
Definition split (ic : bool) (pat : regex) (s : str) : list str :=
  let '(ms, tl) := finditer ic pat s in
  map fst ms ++ [tl].

End Matcher.

(** Pattern-building helpers. *)
Fixpoint lits (t : str) : regex :=
  match t with
  | [] => Eps
  | [c] => Lit c
  | c :: t' => Seq (Lit c) (lits t')
  end.

Definition tlit (t : str) : list titem := map TChar t.

End Re.

(** ** An excerpt of the Unicode tables

    The rows of the character database for Basic Latin and Latin-1
    (U+0000..U+00FF), for the punctuation the source names (U+2010..U+2015,
    U+201C, U+201D, U+2022), for the ellipsis U+2026 and the ligature
    U+FB01. On strings over these characters the functions below agree with
    [unicodedata] and [str]; every other character is treated as an
    unclassified symbol without decomposition. The excerpt is only used to
    evaluate the definitions on concrete texts. *)

Module Latin1.

Definition in_ranges (rs : list (N * N)) (c : char) : bool :=
  existsb (fun r => (fst r <=? c) && (c <=? snd r))%N rs.

Definition isdecimal := in_ranges [(0x30, 0x39)]%N.

Definition isalpha :=
  in_ranges [(0x41, 0x5A); (0x61, 0x7A); (0xAA, 0xAA); (0xB5, 0xB5);
             (0xBA, 0xBA); (0xC0, 0xD6); (0xD8, 0xF6); (0xF8, 0xFF);
             (0xFB01, 0xFB01)]%N.

Definition isalnum (c : char) : bool :=
  isalpha c || in_ranges [(0x30, 0x39); (0xB2, 0xB3); (0xB9, 0xB9);
                          (0xBC, 0xBE)]%N c.

Definition upper (c : char) : str :=
  (if in_ranges [(0x61, 0x7A); (0xE0, 0xF6); (0xF8, 0xFE)] c then [c - 0x20]
   else if c =? 0xB5 then [0x39C]
   else if c =? 0xDF then [0x53; 0x53]
   else if c =? 0xFF then [0x178]
   else if c =? 0xFB01 then [0x46; 0x49]
   else [c])%N.

Definition category_C := in_ranges [(0x00, 0x1F); (0x7F, 0x9F); (0xAD, 0xAD)]%N.

(** Canonical decompositions. *)
Definition canonical (c : char) : option str :=
  match c with
  | 0x00C0 => Some [0x0041; 0x0300]
  | 0x00C1 => Some [0x0041; 0x0301]
  | 0x00C2 => Some [0x0041; 0x0302]
  | 0x00C3 => Some [0x0041; 0x0303]
  | 0x00C4 => Some [0x0041; 0x0308]
  | 0x00C5 => Some [0x0041; 0x030A]
  | 0x00C7 => Some [0x0043; 0x0327]
  | 0x00C8 => Some [0x0045; 0x0300]
  | 0x00C9 => Some [0x0045; 0x0301]
  | 0x00CA => Some [0x0045; 0x0302]
  | 0x00CB => Some [0x0045; 0x0308]
  | 0x00CC => Some [0x0049; 0x0300]
  | 0x00CD => Some [0x0049; 0x0301]
  | 0x00CE => Some [0x0049; 0x0302]
  | 0x00CF => Some [0x0049; 0x0308]
  | 0x00D1 => Some [0x004E; 0x0303]
  | 0x00D2 => Some [0x004F; 0x0300]
  | 0x00D3 => Some [0x004F; 0x0301]
  | 0x00D4 => Some [0x004F; 0x0302]
  | 0x00D5 => Some [0x004F; 0x0303]
  | 0x00D6 => Some [0x004F; 0x0308]
  | 0x00D9 => Some [0x0055; 0x0300]
  | 0x00DA => Some [0x0055; 0x0301]
  | 0x00DB => Some [0x0055; 0x0302]
  | 0x00DC => Some [0x0055; 0x0308]
  | 0x00DD => Some [0x0059; 0x0301]
  | 0x00E0 => Some [0x0061; 0x0300]
  | 0x00E1 => Some [0x0061; 0x0301]
  | 0x00E2 => Some [0x0061; 0x0302]
  | 0x00E3 => Some [0x0061; 0x0303]
  | 0x00E4 => Some [0x0061; 0x0308]
  | 0x00E5 => Some [0x0061; 0x030A]
  | 0x00E7 => Some [0x0063; 0x0327]
  | 0x00E8 => Some [0x0065; 0x0300]
  | 0x00E9 => Some [0x0065; 0x0301]
  | 0x00EA => Some [0x0065; 0x0302]
  | 0x00EB => Some [0x0065; 0x0308]
  | 0x00EC => Some [0x0069; 0x0300]
  | 0x00ED => Some [0x0069; 0x0301]
  | 0x00EE => Some [0x0069; 0x0302]
  | 0x00EF => Some [0x0069; 0x0308]
  | 0x00F1 => Some [0x006E; 0x0303]
  | 0x00F2 => Some [0x006F; 0x0300]
  | 0x00F3 => Some [0x006F; 0x0301]
  | 0x00F4 => Some [0x006F; 0x0302]
  | 0x00F5 => Some [0x006F; 0x0303]
  | 0x00F6 => Some [0x006F; 0x0308]
  | 0x00F9 => Some [0x0075; 0x0300]
  | 0x00FA => Some [0x0075; 0x0301]
  | 0x00FB => Some [0x0075; 0x0302]
  | 0x00FC => Some [0x0075; 0x0308]
  | 0x00FD => Some [0x0079; 0x0301]
  | 0x00FF => Some [0x0079; 0x0308]
  | _ => None
  end%N.

(** Compatibility decompositions of characters without a canonical one. *)
Definition compat (c : char) : option str :=
  match c with
  | 0x00A0 => Some [0x0020]
  | 0x00A8 => Some [0x0020; 0x0308]
  | 0x00AA => Some [0x0061]
  | 0x00AF => Some [0x0020; 0x0304]
  | 0x00B2 => Some [0x0032]
  | 0x00B3 => Some [0x0033]
  | 0x00B4 => Some [0x0020; 0x0301]
  | 0x00B5 => Some [0x03BC]
  | 0x00B8 => Some [0x0020; 0x0327]
  | 0x00B9 => Some [0x0031]
  | 0x00BA => Some [0x006F]
  | 0x00BC => Some [0x0031; 0x2044; 0x0034]
  | 0x00BD => Some [0x0031; 0x2044; 0x0032]
  | 0x00BE => Some [0x0033; 0x2044; 0x0034]
  | 0x2011 => Some [0x2010]
  | 0x2026 => Some [0x002E; 0x002E; 0x002E]
  | 0xFB01 => Some [0x0066; 0x0069]
  | _ => None
  end%N.

Definition normalize (form : normal_form) (s : str) : str :=
  match form with
  | NFC => s
  | NFD => flat_map (fun c => default [c] (canonical c)) s
  | NFKC => flat_map (fun c => default [c] (compat c)) s
  | NFKD =>
      flat_map (fun c => default (default [c] (compat c)) (canonical c)) s
  end.

#[export] Instance ucd : UnicodeData := {
  uc_isdecimal := isdecimal;
  uc_isalnum := isalnum;
  uc_isalpha := isalpha;
  uc_upper := upper;
  uc_category_C := category_C;
  uc_normalize := normalize
}.

End Latin1.

(** ** Python values and exceptions *)

Definition ch (a : ascii) : char := N_of_ascii a.

(** The values an argument annotated [str] may hold at run time. *)
Inductive pyval :=
  | PyNone
  | PyInt (z : Z)
  | PyStr (s : str)
  | PyBytes (b : list N).

Inductive exn :=
  | TypeError
  | ValueError (message : str)
  | IndexError
  | AttributeError
  | KeyError
  | RuntimeError
  | RecursionError
  | OSError
  | HTTPException (status_code : Z) (detail : str).

(** [inl e] is [raise e]; [inr v] is a normal result. *)
Definition result (A : Type) : Type := exn + A.

Definition raise {A} (e : exn) : result A := inl e.

#[global] Instance result_ret : MRet result := fun A v => inr v.
#[global] Instance result_bind : MBind result := fun A B f r =>
  match r with
  | inl e => inl e
  | inr v => f v
  end.

(** A [str] operation applied to a run-time value: [re.sub], [str.split]
    and the like reject anything that is not a [str]. *)
Definition on_str (f : str -> result str) (v : pyval) : result pyval :=
  match v with
  | PyStr s => s' ← f s; mret (PyStr s')
  | _ => raise TypeError
  end.

(** [s[i]] *)
Definition index (s : str) (i : nat) : result char :=
  match s !! i with
  | Some c => mret c
  | None => raise IndexError
  end.

(** How a [try] block that keeps assigning to the local [answer] ends: it
    returns, or it raises with [answer] holding its last assigned value. *)
Inductive try_outcome :=
  | Returns (v : pyval)
  | Raises (e : exn) (answer : pyval).

(** [answer = rhs], followed by the rest of the block. *)
Definition assign (answer : pyval) (rhs : result pyval)
    (rest : pyval -> try_outcome) : try_outcome :=
  match rhs with
  | inl e => Raises e answer
  | inr v => rest v
  end.

(** ** [utils.py] *)

Section Utils.
Context `{UnicodeData}.

(** The pattern [(?<=[.!?])\s+]: whitespace that follows a full stop, an
    exclamation mark or a question mark. *)
Definition sentence_boundary : Re.regex :=
  Re.Seq (Re.Lookbehind [Re.CChar (ch "."); Re.CChar (ch "!"); Re.CChar (ch "?")])
         (Re.Plus (Re.Set_ false [Re.CSpace])).

(** The local variables of the loop of [chunk_context]. *)
Record chunk_loop := ChunkLoop {
  lp_chunks : list str;
  lp_current_chunk : list str;
  lp_current_length : Z
}.

(** [if current_chunk: chunks.append(' '.join(current_chunk))] *)
Definition flush (chunks : list str) (current_chunk : list str) : list str :=
  match current_chunk with
  | [] => chunks
  | _ => chunks ++ [join (u " ") current_chunk]
  end.

(** One iteration of [for sentence in sentences]. *)
Definition chunk_step (max_chunk_size : Z) (st : chunk_loop) (sentence : str)
    : chunk_loop :=
  let sentence_length := Z.of_nat (length (split sentence)) in
  if lp_current_length st + sentence_length >? max_chunk_size
  then ChunkLoop (flush (lp_chunks st) (lp_current_chunk st))
                 [sentence] sentence_length
  else ChunkLoop (lp_chunks st) (lp_current_chunk st ++ [sentence])
                 (lp_current_length st + sentence_length).

(** The loop over the sentences and the final
    [if current_chunk: chunks.append(...)]. *)
Definition chunk_sentences (max_chunk_size : Z) (sentences : list str)
    : list str :=
  let st := fold_left (chunk_step max_chunk_size) sentences
                      (ChunkLoop [] [] 0) in
  flush (lp_chunks st) (lp_current_chunk st).

Definition chunk_context (context : str) (max_chunk_size : Z) : list str :=
  let sentences := Re.split false sentence_boundary context in
  chunk_sentences max_chunk_size sentences.

(** The default [max_chunk_size=512]. *)
Definition chunk_context_default (context : str) : list str :=
  chunk_context context 512.

(** *** [clean_text] *)

Definition punct : Re.regex :=
  Re.Set_ false [Re.CChar (ch "."); Re.CChar (ch ","); Re.CChar (ch "!");
                 Re.CChar (ch "?")].

Definition white : Re.regex := Re.Set_ false [Re.CSpace].

(** [([.,!?])([.,!?])+] *)
Definition pat_punct_run : Re.regex :=
  Re.Seq (Re.Group 1 punct) (Re.Plus (Re.Group 2 punct)).

(** The class of U+2010..U+2015 (hyphens and dashes). *)
Definition pat_dashes : Re.regex := Re.Set_ false [Re.CRange 0x2010 0x2015]%N.

(** [[“”]] *)
Definition pat_quotes : Re.regex :=
  Re.Set_ false [Re.CChar 0x201C; Re.CChar 0x201D]%N.

(** [([.,!?])\1+] *)
Definition pat_punct_repeat : Re.regex :=
  Re.Seq (Re.Group 1 punct) (Re.Plus (Re.Backref 1)).

(** [([.,!?])([^\s])] *)
Definition pat_punct_glued : Re.regex :=
  Re.Seq (Re.Group 1 punct) (Re.Group 2 (Re.Set_ true [Re.CSpace])).

(** The statements of [clean_text] after the normalization, on the
    normalized text. *)
Definition clean_normalized (text : str) : str :=
  let text := filter (fun c => uc_category_C c = false) text in
  let text := join (u " ") (split text) in
  let text := Re.sub false pat_punct_run [Re.TGroup 1] text in
  let text := Re.sub false pat_dashes (Re.tlit (u "-")) text in
  let text := Re.sub false pat_quotes [Re.TChar 0x22%N] text in
  let text := Re.sub false pat_punct_repeat [Re.TGroup 1] text in
  let text := Re.sub false pat_punct_glued
                [Re.TGroup 1; Re.TChar (ch " "); Re.TGroup 2] text in
  strip text.

(** [clean_text]. Every operation of its [try] block is defined on all of
    [str], so on a [str] argument the [except] branch is not taken. *)
Definition clean_text (text : str) : str :=
  let text := uc_normalize NFKD text in
  clean_normalized text.

(** *** [extract_text_from_pdf]

    The document is given by what [fitz] reads from it: the texts of the
    blocks of its pages in order, or a failure to open the file. *)
Definition extract_text_from_pdf (doc : result (list str)) : result str :=
  blocks ← doc;
  let text_blocks :=
    filter (fun t => t <> [])
           (map (fun t => strip (Re.sub false (Re.Plus white)
                                        (Re.tlit (u " ")) t)) blocks) in
  let text := join [0x0A%N] text_blocks in
  match strip text with
  | [] => raise (ValueError (u "No text content found in PDF"))
  | _ => mret (clean_text text)
  end.

(** *** [post_process_answer] *)

(** [ID:?\s*\d+] *)
Definition pat_id : Re.regex :=
  Re.Seq (Re.lits (u "ID"))
    (Re.Seq (Re.Opt (Re.Lit (ch ":")))
       (Re.Seq (Re.Star white) (Re.Plus (Re.Set_ false [Re.CDigit])))).

(** [Objective:.*] *)
Definition pat_objective : Re.regex :=
  Re.Seq (Re.lits (u "Objective:")) (Re.Star Re.Any).

(** [^\s*[-•]\s*] *)
Definition pat_bullet : Re.regex :=
  Re.Seq Re.Bol
    (Re.Seq (Re.Star white)
       (Re.Seq (Re.Set_ false [Re.CChar (ch "-"); Re.CChar 0x2022%N])
          (Re.Star white))).

(** [\s+([.,!?])] *)
Definition pat_space_punct : Re.regex :=
  Re.Seq (Re.Plus white) (Re.Group 1 punct).

Definition capitalized : Re.regex :=
  Re.Seq (Re.Set_ false [Re.CRange (ch "A") (ch "Z")])
         (Re.Plus (Re.Set_ false [Re.CRange (ch "a") (ch "z")])).

(** [([A-Z][a-z]+)\s*([A-Z][a-z]+)] *)
Definition pat_capitalized_pair : Re.regex :=
  Re.Seq (Re.Group 1 capitalized)
    (Re.Seq (Re.Star white) (Re.Group 2 capitalized)).

(** [\b(ID|Submitted by|Name|Roll|Number):\s*], with [re.IGNORECASE] *)
Definition pat_labels : Re.regex :=
  Re.Seq Re.WordB
    (Re.Seq
       (Re.Group 1
          (Re.Alt (Re.lits (u "ID"))
             (Re.Alt (Re.lits (u "Submitted by"))
                (Re.Alt (Re.lits (u "Name"))
                   (Re.Alt (Re.lits (u "Roll")) (Re.lits (u "Number")))))))
       (Re.Seq (Re.Lit (ch ":")) (Re.Star white))).

(** The block under [if '.' in answer]. *)
Definition drop_fragments (answer : str) : str :=
  if contains_char (ch ".") answer then
    let sentences := split_on (ch ".") answer in
    let complete_sentences :=
      map strip
          (filter (fun s => (2 <? length (split (strip s)))%nat) sentences) in
    match complete_sentences with
    | [] => answer
    | _ => join (u ". ") complete_sentences ++ u "."
    end
  else answer.

(** [if answer and answer[0].isalpha(): answer = answer[0].upper() + answer[1:]] *)
Definition capitalize_first (answer : str) : result str :=
  test ← (match answer with
          | [] => mret false
          | _ => c ← index answer 0; mret (uc_isalpha c)
          end);
  if (test : bool) then c ← index answer 0; mret (uc_upper c ++ drop 1 answer)
  else mret answer.

(** [if not any(answer.endswith(p) for p in '.!?'): answer += '.'] *)
Definition ensure_terminal (answer : str) : str :=
  if existsb (endswith_char answer) (u ".!?") then answer
  else answer ++ u ".".

(** The [try] block of [post_process_answer]. *)
Definition post_process_try (answer : pyval) : try_outcome :=
  assign answer
    (on_str (fun a => mret (Re.sub false pat_id [] a)) answer) (fun answer =>
  assign answer
    (on_str (fun a => mret (Re.sub false pat_objective [] a)) answer) (fun answer =>
  assign answer
    (on_str (fun a => mret (Re.sub false pat_bullet [] a)) answer) (fun answer =>
  assign answer
    (on_str (fun a => mret (join (u " ") (split a))) answer) (fun answer =>
  assign answer
    (on_str (fun a => mret (drop_fragments a)) answer) (fun answer =>
  assign answer
    (on_str capitalize_first answer) (fun answer =>
  assign answer
    (on_str (fun a => mret (ensure_terminal a)) answer) (fun answer =>
  assign answer
    (on_str (fun a => mret (Re.sub false pat_space_punct [Re.TGroup 1] a))
            answer) (fun answer =>
  assign answer
    (on_str (fun a => mret (Re.sub false pat_capitalized_pair
                              [Re.TGroup 1; Re.TChar (ch " "); Re.TGroup 2] a))
            answer) (fun answer =>
  assign answer
    (on_str (fun a => mret (Re.sub true pat_labels [] a)) answer) (fun answer =>
  match on_str (fun a => mret (strip a)) answer with
  | inl e => Raises e answer
  | inr v => Returns v
  end)))))))))).

(** [post_process_answer]: the [try] block, and [except Exception: return
    answer], which hands back the value [answer] holds when the exception
    is raised. *)
Definition post_process_answer (answer : pyval) : result pyval :=
  match post_process_try answer with
  | Returns v => mret v
  | Raises _ answer => mret answer
  end.

End Utils.

(** ** The models and the service state

    [embedding_model] (a sentence transformer), [util.pytorch_cos_sim],
    [torch.topk] and the T5 [tokenizer]/[t5_model] pair are library objects.
    They are parameters here. A call may raise ([None]; which exception of
    the library it is does not matter to the [except Exception] handlers of
    the source), and the generator samples ([do_sample=True]), so the answer
    of a model may differ from one call to the next: each model takes the
    number of calls logged so far. *)

Class Models := {
  embedding : Type;
  score : Type;
  (** the vector the sentence transformer assigns to a text *)
  embed : str -> embedding;
  (** [embedding_model.encode(texts, convert_to_tensor=True)] on a list *)
  encode : nat -> list str -> option (list embedding);
  (** [embedding_model.encode(text, convert_to_tensor=True)] on one text *)
  encode_one : nat -> str -> option embedding;
  (** one entry of [util.pytorch_cos_sim] *)
  cos_sim : embedding -> embedding -> score;
  (** the order of scores: [score_ge a b] when [a >= b] *)
  score_ge : score -> score -> bool;
  (** [torch.topk(scores, k).indices] *)
  topk : list score -> Z -> option (list nat);
  (** [tokenizer.encode], [t5_model.generate] and [tokenizer.decode] on a
      prompt *)
  t5 : nat -> str -> option str
}.

(** A row of the [documents] table. Only the key is declared not
    nullable: every other column may hold NULL. *)
Record Document := MkDocument {
  filename : option str;
  original_filename : option str;
  content : option str
}.

(** The calls that the properties count. *)
Inductive event :=
  | EvChunkContext (context : str)
  | EvGenerateEmbeddings (texts : list str)
  | EvEncodeQuestion (question : str)
  | EvGenerate (input_text : str).

(** How a call ends: with a value or with an exception. *)
Inductive outcome (A : Type) :=
  | Done (a : A)
  | Raised (e : exn).
Arguments Done {A} a.
Arguments Raised {A} e.

Section Service.
Context `{UnicodeData} `{Models}.

(** What the library documents for [encode] on a list: one vector per
    text, in the order of the texts. *)
Definition encode_contract : Prop :=
  forall n texts es, encode n texts = Some es -> es = map embed texts.

(** What the library documents for [topk] (with [largest=True],
    [sorted=True]): for [0 <= k <= len(scores)] the positions of [k]
    elements, none below an element left out, in non-increasing order of
    score; an error for any other [k]. The order among equal scores is not
    specified. *)
Definition topk_contract : Prop :=
  forall (scores : list score) (k : Z),
    (0 <= k <= Z.of_nat (length scores) ->
     exists indices,
       topk scores k = Some indices /\
       Z.of_nat (length indices) = k /\
       NoDup indices /\
       (forall i, i ∈ indices -> (i < length scores)%nat) /\
       (forall a b i j si sj,
          indices !! a = Some i -> indices !! b = Some j -> (a <= b)%nat ->
          scores !! i = Some si -> scores !! j = Some sj ->
          score_ge si sj = true) /\
       (forall i j si sj,
          i ∈ indices -> j ∉ indices ->
          scores !! i = Some si -> scores !! j = Some sj ->
          score_ge si sj = true)) /\
    (~ 0 <= k <= Z.of_nat (length scores) -> topk scores k = None).

(** A value of the dictionary [document_embeddings]. *)
Record index_entry := MkEntry {
  chunks : list str;
  embeddings : list embedding
}.

Record world := MkWorld {
  db : gmap Z Document;
  document_embeddings : gmap Z index_entry;
  trace : list event
}.

Definition now (w : world) : nat := length (trace w).

Definition log (e : event) (w : world) : world :=
  MkWorld (db w) (document_embeddings w) (trace w ++ [e]).

Definition M (A : Type) : Type := world -> outcome A * world.

#[local] Instance M_ret : MRet M := fun A a w => (Done a, w).
#[local] Instance M_bind : MBind M := fun A B f m w =>
  match m w with
  | (Done a, w') => f a w'
  | (Raised e, w') => (Raised e, w')
  end.

Definition throw {A} (e : exn) : M A := fun w => (Raised e, w).
Definition lift {A} (r : result A) : M A :=
  match r with
  | inl e => throw e
  | inr a => mret a
  end.
(** The result of a call to a model. *)
Definition lift_model {A} (r : option A) : M A :=
  match r with
  | None => throw RuntimeError
  | Some a => mret a
  end.
(** The result of a call to the file system. *)
Definition lift_os {A} (r : option A) : M A :=
  match r with
  | None => throw OSError
  | Some a => mret a
  end.
Definition emit (e : event) : M unit := fun w => (Done tt, log e w).
Definition get_world : M world := fun w => (Done w, w).
Definition get_now : M nat := fun w => (Done (now w), w).
Definition modify (f : world -> world) : M unit := fun w => (Done tt, f w).

(** [try: body / except Exception as e: handler(e)] *)
Definition try_except {A} (body : M A) (handler : exn -> M A) : M A := fun w =>
  match body w with
  | (Raised e, w') => handler e w'
  | r => r
  end.

(** *** [generate_embeddings] *)
Definition generate_embeddings (chunks : list str) : M (list embedding) :=
  try_except
    (n ← get_now;
     _ ← emit (EvGenerateEmbeddings chunks);
     lift_model (encode n chunks))
    (fun e => throw e).

(** *** [retrieve_relevant_chunks] *)

(** [util.pytorch_cos_sim(question_embedding, embeddings)[0]]: one score
    for each row of [embeddings]. The tensor of an empty list of embeddings
    has no row of the width of the query, and the matrix product raises. *)
Definition pytorch_cos_sim (a : embedding) (b : list embedding)
    : option (list score) :=
  match b with
  | [] => None
  | _ => Some (map (cos_sim a) b)
  end.

Definition retrieve_relevant_chunks (question : str) (chunks : list str)
    (embeddings : list embedding) (top_k : Z) : M (list str) :=
  try_except
    (n ← get_now;
     _ ← emit (EvEncodeQuestion question);
     question_embedding ← lift_model (encode_one n question);
     cos_scores ← lift_model (pytorch_cos_sim question_embedding embeddings);
     let available_chunks := Z.of_nat (length chunks) in
     let effective_k := Z.min top_k available_chunks in
     if effective_k =? 0 then mret []
     else
       indices ← lift_model (topk cos_scores effective_k);
       lift (mapM (fun idx => match chunks !! idx with
                              | Some c => inr c
                              | None => raise IndexError
                              end) indices))
    (fun e => throw e).

(** *** [generate_fluent_answer] *)

Definition apology_no_chunks : str :=
  u "I'm sorry, but I couldn't find relevant information to answer your question.".

Definition apology_failed : str :=
  u "I apologize, but I couldn't generate an accurate answer to that question.".

Definition input_text_of (question combined_context : str) : str :=
  u "Answer the following question based on the given context. "
  ++ u "Provide a clear and concise answer. "
  ++ u "Question: " ++ question ++ u " "
  ++ u "Context: " ++ combined_context.

(** [len(answer.split())] on the value [post_process_answer] returned. *)
Definition count_words (answer : pyval) : result nat :=
  match answer with
  | PyStr a => mret (length (split a))
  | _ => raise AttributeError
  end.

(** [fuel] is the depth of recursion the interpreter still allows; the
    source has no bound of its own. When none is left, the call [return
    generate_fluent_answer(question, relevant_chunks)] of line 284 raises
    [RecursionError]; it does so inside the [try] block, whose handler
    catches it. *)
Fixpoint generate_fluent_answer (fuel : nat) (question : str)
    (relevant_chunks : list str) : M pyval :=
  try_except
    (match relevant_chunks with
     | [] => mret (PyStr apology_no_chunks)
     | _ =>
         let combined_context := join (u " ") relevant_chunks in
         let input_text := input_text_of question combined_context in
         n ← get_now;
         _ ← emit (EvGenerate input_text);
         answer ← lift_model (t5 n input_text);
         answer ← lift (post_process_answer (PyStr answer));
         words ← lift (count_words answer);
         if (words <? 5)%nat
         then match fuel with
              | O => throw RecursionError
              | S fuel' =>
                  generate_fluent_answer fuel' question relevant_chunks
              end
         else mret answer
     end)
    (fun _ => mret (PyStr apology_failed)).

(** *** [main.py]: the endpoints *)

Record QuestionRequest := MkRequest {
  document_id : Z;
  question : str
}.

(** [confidence] is the float [1.0] or [0.0], written [1] or [0]; the
    [timestamp] field is left out. *)
Record QuestionResponse := MkResponse {
  r_answer : pyval;
  r_confidence : Z;
  r_document_id : Z;
  r_question : str;
  r_model_answers : list (str * pyval * Z)
}.

Definition no_context_detail : str :=
  u "No context available to process the question.".

(** [chunk_context(document.content)]: [re.split] rejects [None]. *)
Definition chunk_content (content : option str) : M (list str) :=
  match content with
  | Some text =>
      _ ← emit (EvChunkContext text);
      mret (chunk_context_default text)
  | None => throw TypeError
  end.

(** [document_embeddings[id] = {"chunks": ..., "embeddings": ...}] *)
Definition store (id : Z) (e : index_entry) : M unit :=
  modify (fun w =>
    MkWorld (db w) (<[id := e]> (document_embeddings w)) (trace w)).

(** [except HTTPException as he: raise he / except Exception: raise
    HTTPException(500, detail)] *)
Definition http_guard {A} (detail : str) (body : M A) : M A :=
  try_except body (fun e =>
    match e with
    | HTTPException _ _ => throw e
    | _ => throw (HTTPException 500 detail)
    end).

(** Lines 196-211 of [ask_question]: build the entry of the document when
    the dictionary has none, then read the entry. *)
Definition cached_index (id : Z) (document : Document) : M index_entry :=
  w ← get_world;
  _ ← (match document_embeddings w !! id with
       | Some _ => mret tt
       | None =>
           chunks ← chunk_content (content document);
           match chunks with
           | [] => throw (HTTPException 500 no_context_detail)
           | _ =>
               embeddings ← generate_embeddings chunks;
               store id (MkEntry chunks embeddings)
           end
       end);
  w ← get_world;
  match document_embeddings w !! id with
  | Some e => mret e
  | None => throw KeyError
  end.

(** Lines 212-242 of [ask_question]: retrieve from the entry and answer. *)
Definition answer_from_index (fuel : nat) (request : QuestionRequest)
    (e : index_entry) : M QuestionResponse :=
  relevant_chunks ←
    retrieve_relevant_chunks (question request) (chunks e) (embeddings e) 3;
  match relevant_chunks with
  | [] =>
      mret (MkResponse (PyStr apology_no_chunks) 0
              (document_id request) (question request) [])
  | _ =>
      answer ← generate_fluent_answer fuel (question request) relevant_chunks;
      mret (MkResponse answer 1 (document_id request)
              (question request) [(u "t5_qa_model", answer, 1)])
  end.

Definition ask_question (fuel : nat) (request : QuestionRequest)
    : M QuestionResponse :=
  http_guard (u "Error processing question")
    (w ← get_world;
     match db w !! document_id request with
     | None => throw (HTTPException 404 (u "Document not found"))
     | Some document =>
         e ← cached_index (document_id request) document;
         answer_from_index fuel request e
     end).

(** [file.filename.lower().endswith('.pdf')]: only the ASCII letters lower
    to [p], [d] and [f]. *)
Definition is_pdf_name (name : str) : bool :=
  match rev name with
  | f :: d :: p :: dot :: _ =>
      ((dot =? ch ".") && (Re.ascii_lower p =? ch "p")
       && (Re.ascii_lower d =? ch "d") && (Re.ascii_lower f =? ch "f"))%N
  | _ => false
  end.

(** [db.add(document); db.commit(); db.refresh(document)]: the table
    assigns the key [id], which must be new, and [filename] is declared
    [unique] (a constraint that NULL names do not break). *)
Definition db_add (id : Z) (d : Document) : M Z :=
  w ← get_world;
  if bool_decide (is_Some (db w !! id))
     || bool_decide (map_Exists
                      (fun _ d' => is_Some (filename d)
                                   /\ filename d' = filename d) (db w))
  then throw RuntimeError                              (* IntegrityError *)
  else
    _ ← modify (fun w =>
          MkWorld (<[id := d]> (db w)) (document_embeddings w) (trace w));
    mret id.

(** [upload_pdf]. The request carries the file name; [timestamp] is the
    clock reading that prefixes the stored name, [save] the outcome of
    writing the uploaded bytes under the upload directory (lines 126-128;
    [None] when that raises, as it does for a name with a directory part),
    [pdf] what [fitz] reads from the saved file, and [id] the key the table
    assigns. The handlers of the extraction remove the file this request
    has just written. *)
Definition upload_pdf (file_name timestamp : str) (save : option unit)
    (pdf : result (list str)) (id : Z) : M (Z * str) :=
  http_guard (u "Unexpected error during file upload")
    (if negb (is_pdf_name file_name)
     then throw (HTTPException 400 (u "Only PDF files are allowed"))
     else
       let unique_filename := timestamp ++ u "_" ++ file_name in
       _ ← lift_os save;
       text_content ←
         (match extract_text_from_pdf pdf with
          | inr t => mret t
          | inl (ValueError message) =>              (* [detail=str(ve)] *)
              throw (HTTPException 400 message)
          | inl _ =>
              throw (HTTPException 500 (u "Error extracting text from PDF"))
          end);
       id ← db_add id (MkDocument (Some unique_filename) (Some file_name)
                         (Some text_content));
       _ ← emit (EvChunkContext text_content);
       let chunks := chunk_context_default text_content in
       _ ← (match chunks with
            | [] => mret tt
            | _ =>
                embeddings ← generate_embeddings chunks;
                store id (MkEntry chunks embeddings)
            end);
       mret (id, file_name)).

(** [delete_document]. [removal] is the outcome of lines 285-289 on the
    path of the stored file: [os.path.exists], and [os.remove] when the
    path exists ([None] when that raises, as it does for a path that is a
    directory). *)
Definition delete_document (removal : option unit) (id : Z) : M str :=
  http_guard (u "Error deleting document")
    (w ← get_world;
     match db w !! id with
     | None => throw (HTTPException 404 (u "Document not found"))
     | Some document =>
         (* [os.path.join(UPLOAD_DIRECTORY, document.filename)] rejects
            [None] *)
         _ ← (match filename document with
              | Some _ => mret tt
              | None => throw TypeError
              end);
         _ ← lift_os removal;
         (* [if document_id in document_embeddings: del ...] *)
         _ ← modify (fun w =>
               MkWorld (db w) (delete id (document_embeddings w)) (trace w));
         (* [db.delete(document); db.commit()] *)
         _ ← modify (fun w =>
               MkWorld (delete id (db w)) (document_embeddings w) (trace w));
         mret (u "Document deleted successfully")
     end).

(** *** The states the service reaches *)

Definition initial : world := MkWorld ∅ ∅ [].

(** A write to the [documents] table from outside the service (the reset
    scripts of the repository, or any other client of the database). *)
Definition external_write (db' : gmap Z Document) (w : world) : world :=
  MkWorld db' (document_embeddings w) (trace w).

Inductive reachable : world -> Prop :=
  | reach_initial : reachable initial
  | reach_upload w file_name timestamp save pdf id :
      reachable w ->
      reachable (snd (upload_pdf file_name timestamp save pdf id w))
  | reach_ask w fuel request :
      reachable w -> reachable (snd (ask_question fuel request w))
  | reach_delete w removal id :
      reachable w -> reachable (snd (delete_document removal id w))
  | reach_external w db' :
      reachable w -> reachable (external_write db' w).

End Service.

(** ** Concrete models, for evaluating the service on examples *)

Module Demo.

(** Scores paired with their positions. *)
Definition indexed (scores : list Z) : list (Z * nat) :=
  zip scores (seq 0 (length scores)).

(** Higher score first; among equal scores, the earlier position first. *)
Definition earlier_first (x y : Z * nat) : Prop :=
  x.1 > y.1 \/ (x.1 = y.1 /\ (x.2 <= y.2)%nat).

#[global] Instance earlier_first_dec : RelDecision earlier_first.
Proof. intros x y. unfold earlier_first. apply _. Defined.

(** A [topk] that sorts with the order [R]. *)
Definition topk_sorting (R : relation (Z * nat)) `{!RelDecision R}
    (scores : list Z) (k : Z) : option (list nat) :=
  if bool_decide (0 <= k <= Z.of_nat (length scores))
  then Some (map snd (take (Z.to_nat k) (merge_sort R (indexed scores))))
  else None.

(** A toy language model pair: a text is embedded as its number of words,
    two embeddings are the more similar the closer they are, and the
    generator returns what [reply] says. *)
Definition models (R : relation (Z * nat)) `{!RelDecision R}
    (embedder_works : bool) (reply : nat -> str -> option str) : Models := {|
  embedding := Z;
  score := Z;
  embed := fun s => Z.of_nat (length (split s));
  encode := fun _ texts =>
    if embedder_works
    then Some (map (fun s => Z.of_nat (length (split s))) texts)
    else None;
  encode_one := fun _ s =>
    if embedder_works then Some (Z.of_nat (length (split s))) else None;
  cos_sim := fun a b => - Z.abs (a - b);
  score_ge := Z.geb;
  topk := topk_sorting R;
  t5 := reply
|}.

Definition short_reply : nat -> str -> option str :=
  fun _ _ => Some (u "Yes").

Definition long_reply : nat -> str -> option str :=
  fun _ _ => Some (u "the capital of France is Paris").

(** The models of the runs below: a working embedder, a [topk] that takes
    the earlier of two equal scores first, and a generator with a long or
    a short answer. *)
Definition talkative : Models := models earlier_first true long_reply.
Definition terse : Models := models earlier_first true short_reply.

(** A table with one document. *)
Definition one_document : @world talkative :=
  MkWorld {[ 1 := MkDocument (Some (u "0_a.pdf")) (Some (u "a.pdf"))
                            (Some (u "Paris is the capital. It is large.")) ]}
          ∅ [].

(** The entry of that document, and the entry of a two-sentence upload. *)
Definition capital_entry : @index_entry talkative :=
  @MkEntry talkative [u "Paris is the capital. It is large."] [7].

Definition hello_entry : @index_entry talkative :=
  @MkEntry talkative [u "Hello world. Bye."] [3].

(** The same table after the content of the document was replaced. *)
Definition rewritten : gmap Z Document :=
  {[ 1 := MkDocument (Some (u "0_a.pdf")) (Some (u "a.pdf"))
                     (Some (u "Gone.")) ]}.

End Demo.

(** * The vocabulary of the properties *)

Section Vocabulary.
Context `{UnicodeData} `{Models}.

(** ** Chunks *)

(** [len(s.split())] *)
Definition word_count (s : str) : Z := Z.of_nat (length (split s)).

(** A group of sentences that may form a chunk under the limit. *)
Definition admissible (max_chunk_size : Z) (g : list str) : Prop :=
  g <> [] /\
  (word_count (join (u " ") g) <= max_chunk_size
   \/ exists s, g = [s] /\ max_chunk_size < word_count s).

(** The invariant of the loop of [chunk_context], after the sentences
    [seen]. *)
Definition chunk_inv (max_chunk_size : Z) (seen : list str) (st : chunk_loop)
    : Prop :=
  exists groups,
    lp_chunks st = map (join (u " ")) groups /\
    Forall (admissible max_chunk_size) groups /\
    concat groups ++ lp_current_chunk st = seen /\
    lp_current_length st = word_count (join (u " ") (lp_current_chunk st)) /\
    (lp_current_chunk st <> [] ->
     admissible max_chunk_size (lp_current_chunk st)).

(** ** The steps of [clean_text] after the normalization, by name *)

(** Drop the characters of the categories Cc, Cf, Cs, Co and Cn. *)
Definition strip_control (text : str) : str :=
  filter (fun c => uc_category_C c = false) text.

(** Runs of whitespace become one space; none is left at either end. *)
Definition collapse_whitespace (text : str) : str := join (u " ") (split text).

(** The five substitutions on punctuation, and the final [strip]. *)
Definition tidy_punctuation (text : str) : str :=
  let text := Re.sub false pat_punct_run [Re.TGroup 1] text in
  let text := Re.sub false pat_dashes (Re.tlit (u "-")) text in
  let text := Re.sub false pat_quotes [Re.TChar 0x22%N] text in
  let text := Re.sub false pat_punct_repeat [Re.TGroup 1] text in
  let text := Re.sub false pat_punct_glued
                [Re.TGroup 1; Re.TChar (ch " "); Re.TGroup 2] text in
  strip text.

(** ** Calls of the service *)

(** [holds R Q E m]: whatever the state, running [m] moves it along [R];
    a value it returns satisfies [Q], an exception it raises satisfies [E]. *)
Definition holds {A} (R : relation world) (Q : A -> Prop) (E : exn -> Prop)
    (m : M A) : Prop :=
  forall w,
    R w (snd (m w)) /\
    match fst (m w) with
    | Done a => Q a
    | Raised e => E e
    end.

(** No constraint. *)
Definition any_change : relation world := fun _ _ => True.

(** An entry of the dictionary pairs every chunk with its embedding. *)
Definition entry_ok (e : index_entry) : Prop :=
  embeddings e = map embed (chunks e).

(** Every entry of the dictionary does. *)
Definition cache_ok (w : world) : Prop :=
  forall id e, document_embeddings w !! id = Some e -> entry_ok e.

(** A call that does not break this. *)
Definition keeps_cache_ok : relation world :=
  fun w w' => cache_ok w -> cache_ok w'.

(** Calls that build an entry: chunking a text, embedding its chunks. *)
Definition is_chunking (ev : event) : bool :=
  match ev with EvChunkContext _ => true | _ => false end.

Definition is_embedding (ev : event) : bool :=
  match ev with EvGenerateEmbeddings _ => true | _ => false end.

(** How many of the logged calls chunk a text, or embed chunks. *)
Definition chunk_calls (evs : list event) : nat :=
  length (filter (fun ev => is_chunking ev = true) evs).

Definition embed_calls (evs : list event) : nat :=
  length (filter (fun ev => is_embedding ev = true) evs).

(** The table and the dictionary are as before, and the calls logged since
    neither chunk nor embed chunks. *)
Definition quiet : relation world := fun w w' =>
  db w' = db w /\
  document_embeddings w' = document_embeddings w /\
  exists evs, trace w' = trace w ++ evs
              /\ chunk_calls evs = 0%nat /\ embed_calls evs = 0%nat.

(** The calls logged since chunk at most once and embed chunks at most
    once. *)
Definition builds_once : relation world := fun w w' =>
  exists evs, trace w' = trace w ++ evs
              /\ (chunk_calls evs <= 1)%nat /\ (embed_calls evs <= 1)%nat.

(** The rejection [ask_question] keeps for a document without chunks. *)
Definition no_context_error : exn := HTTPException 500 no_context_detail.

(** ** Retrieval *)



(** ** Generation *)

(** The raw output [raw] of the generator post-processes to an answer of
    fewer than five words. *)
Definition too_short (raw : str) : Prop :=
  exists a, post_process_answer (PyStr raw) = inr (PyStr a)
            /\ (length (split a) < 5)%nat.

(** The generator always returns, and what it returns is always too short. *)
Definition persistently_short : Prop :=
  forall n input_text, exists raw, t5 n input_text = Some raw /\ too_short raw.

(** The state after [n] more calls of the generator with the prompt [p]. *)
Definition after_generations (n : nat) (p : str) (w : world) : world :=
  MkWorld (db w) (document_embeddings w) (trace w ++ repeat (EvGenerate p) n).

End Vocabulary.

(** * Properties *)

(** ** The definitions on concrete texts

    The values below are those CPython 3.11 returns for the same calls. *)

Section Examples.
Import Latin1.

Example split_sentences :
  Re.split false sentence_boundary (u "a. b.  c! ")
  = [u "a."; u "b."; u "c!"; u ""].
Proof. vm_compute. reflexivity. Qed.

Example chunk_limit_3 :
  chunk_context (u "One two. Three four five. Six.") 3
  = [u "One two."; u "Three four five."; u "Six."].
Proof. vm_compute. reflexivity. Qed.

Example chunk_limit_5 :
  chunk_context (u "One two. Three four five. Six.") 5
  = [u "One two. Three four five."; u "Six."].
Proof. vm_compute. reflexivity. Qed.

Example chunk_long_sentence :
  chunk_context (u "One two three four.") 2 = [u "One two three four."].
Proof. vm_compute. reflexivity. Qed.

Example post_process_boilerplate :
  post_process_answer (PyStr (u "the ID: 12345 objective is nice . a dog runs"))
  = inr (PyStr (u "The objective is nice. a dog runs.")).
Proof. vm_compute. reflexivity. Qed.

Example post_process_short :
  post_process_answer (PyStr (u "Yes")) = inr (PyStr (u "Yes.")).
Proof. vm_compute. reflexivity. Qed.

Example clean_punctuation :
  clean_text (u "Wait...what?!  ok") = u "Wait. what? ok".
Proof. vm_compute. reflexivity. Qed.

Example extract_two_blocks :
  extract_text_from_pdf (inr [u "Hello world."; u "Bye."])
  = inr (u "Hello world. Bye.").
Proof. vm_compute. reflexivity. Qed.

(** A document whose only text is a control character passes the test for
    text and is cleaned to the empty string. *)
Example extract_control_character :
  extract_text_from_pdf (inr [[0x01%N]]) = inr [].
Proof. vm_compute. reflexivity. Qed.

(** Such a document is stored with one chunk, the empty string. *)
Example upload_of_blank_document :
  document_embeddings
    (snd (upload_pdf (H0 := Demo.talkative) (u "a.pdf") (u "0") (Some tt)
            (inr [[0x01%N]]) 1 initial)) !! 1
  = Some (@MkEntry Demo.talkative [[]] [0]).
Proof. vm_compute. reflexivity. Qed.

End Examples.

(** ** Words, joins and the chunker *)

Section ChunkerProperties.
Context `{UnicodeData}.

Lemma split_go_app_space acc a sp b :
  isspace sp = true ->
  split_go acc (a ++ sp :: b) = split_go acc a ++ split_go [] b.
Proof.
  intros Hsp. revert acc.
  induction a as [|c a IH]; intros acc; simpl.
  - rewrite Hsp. destruct acc; reflexivity.
  - destruct (isspace c).
    + destruct acc; simpl; rewrite IH; reflexivity.
    + apply IH.
Qed.

Lemma word_count_app_space a b :
  word_count (a ++ u " " ++ b) = word_count a + word_count b.
Proof.
  unfold word_count, split. simpl.
  rewrite split_go_app_space by reflexivity.
  rewrite length_app. lia.
Qed.

Lemma join_snoc sep (g : list str) s :
  g <> [] -> join sep (g ++ [s]) = join sep g ++ sep ++ s.
Proof.
  induction g as [|x g IH]; intros Hne; [congruence|].
  destruct g as [|y g].
  - reflexivity.
  - change (join sep ((x :: y :: g) ++ [s]))
      with (x ++ sep ++ join sep ((y :: g) ++ [s])).
    rewrite IH by discriminate.
    change (join sep (x :: y :: g)) with (x ++ sep ++ join sep (y :: g)).
    rewrite <- !app_assoc. reflexivity.
Qed.

Lemma word_count_join_snoc (g : list str) s :
  word_count (join (u " ") (g ++ [s]))
  = word_count (join (u " ") g) + word_count s.
Proof.
  destruct g as [|x g].
  - reflexivity.
  - rewrite join_snoc by discriminate. apply word_count_app_space.
Qed.

Lemma flush_groups max_chunk_size groups cur :
  Forall (admissible max_chunk_size) groups ->
  (cur <> [] -> admissible max_chunk_size cur) ->
  exists groups',
    flush (map (join (u " ")) groups) cur = map (join (u " ")) groups' /\
    Forall (admissible max_chunk_size) groups' /\
    concat groups' = concat groups ++ cur.
Proof.
  intros Hg Hc. destruct cur as [|x cur].
  - exists groups. rewrite app_nil_r. auto.
  - exists (groups ++ [x :: cur]). unfold flush.
    rewrite map_app, concat_app. simpl. rewrite app_nil_r.
    split; [reflexivity|]. split; [|reflexivity].
    apply Forall_app. split; [assumption|].
    constructor; [apply Hc; discriminate | constructor].
Qed.

Lemma chunk_step_inv max_chunk_size seen st sentence :
  chunk_inv max_chunk_size seen st ->
  chunk_inv max_chunk_size (seen ++ [sentence])
            (chunk_step max_chunk_size st sentence).
Proof.
  intros (groups & Hch & Hadm & Hseen & Hlen & Hcur).
  unfold chunk_step.
  fold (word_count sentence).
  destruct (Z.gtb_spec (lp_current_length st + word_count sentence)
                       max_chunk_size) as [Hgt|Hle].
  - destruct (flush_groups max_chunk_size groups (lp_current_chunk st))
      as (groups' & Hfl & Hadm' & Hcat); [assumption..|].
    exists groups'. simpl. rewrite Hch, Hfl, Hcat, Hseen.
    split; [reflexivity|]. split; [assumption|]. split; [reflexivity|].
    split; [reflexivity|]. intros _. split; [discriminate|].
    destruct (Z_le_gt_dec (word_count sentence) max_chunk_size).
    + left. assumption.
    + right. exists sentence. split; [reflexivity | lia].
  - exists groups. simpl.
    split; [assumption|]. split; [assumption|].
    split; [rewrite app_assoc, Hseen; reflexivity|].
    split; [rewrite word_count_join_snoc, <- Hlen; reflexivity|].
    intros _. split.
    + destruct (lp_current_chunk st); discriminate.
    + left. rewrite word_count_join_snoc, <- Hlen. assumption.
Qed.

Lemma chunk_fold_inv max_chunk_size sentences seen st :
  chunk_inv max_chunk_size seen st ->
  chunk_inv max_chunk_size (seen ++ sentences)
            (fold_left (chunk_step max_chunk_size) sentences st).
Proof.
  revert seen st. induction sentences as [|s sentences IH]; intros seen st Hinv.
  - rewrite app_nil_r. assumption.
  - simpl. replace (seen ++ s :: sentences) with ((seen ++ [s]) ++ sentences)
      by (rewrite <- app_assoc; reflexivity).
    apply IH, chunk_step_inv, Hinv.
Qed.

Lemma chunk_sentences_groups max_chunk_size sentences :
  exists groups,
    concat groups = sentences /\
    chunk_sentences max_chunk_size sentences = map (join (u " ")) groups /\
    Forall (admissible max_chunk_size) groups.
Proof.
  destruct (chunk_fold_inv max_chunk_size sentences [] (ChunkLoop [] [] 0))
    as (groups & Hch & Hadm & Hseen & _ & Hcur).
  { exists []. simpl. split; [reflexivity|]. split; [constructor|].
    split; [reflexivity|]. split; [reflexivity | congruence]. }
  destruct (flush_groups max_chunk_size groups _ Hadm Hcur)
    as (groups' & Hfl & Hadm' & Hcat).
  exists groups'. unfold chunk_sentences. simpl in Hseen.
  rewrite Hch, Hfl, Hcat, Hseen. auto.
Qed.

(** After at least one sentence the loop holds an open chunk. *)
Lemma chunk_fold_open max_chunk_size sentences st :
  sentences <> [] ->
  lp_current_chunk (fold_left (chunk_step max_chunk_size) sentences st) <> [].
Proof.
  intros Hne.
  destruct (exists_last Hne) as (front & s & ->).
  rewrite fold_left_app. simpl. unfold chunk_step.
  destruct (_ >? _); simpl; [discriminate|].
  destruct (lp_current_chunk _); discriminate.
Qed.

Lemma flush_nonempty chunks cur : cur <> [] -> flush chunks cur <> [].
Proof.
  intros Hne. destruct cur; [congruence|]. unfold flush.
  destruct chunks; discriminate.
Qed.

Lemma re_split_nonempty ic pat s : Re.split ic pat s <> [].
Proof.
  unfold Re.split. destruct (Re.finditer ic pat s) as [ms tl].
  destruct (map fst ms); discriminate.
Qed.

Lemma chunk_context_nonempty context max_chunk_size :
  chunk_context context max_chunk_size <> [].
Proof.
  unfold chunk_context, chunk_sentences.
  apply flush_nonempty, chunk_fold_open, re_split_nonempty.
Qed.

(** C1. For every text and every limit, the chunks are the joins (with
    single spaces) of consecutive groups of the sentences of the text, in
    order and with no sentence left out or divided; and the word count of
    each chunk is at most the limit, unless the chunk is one sentence that
    alone has more words than the limit. *)
Theorem chunk_context_respects_limit (context : str) (max_chunk_size : Z) :
  exists groups : list (list str),
    concat groups = Re.split false sentence_boundary context /\
    chunk_context context max_chunk_size = map (join (u " ")) groups /\
    Forall (fun g =>
              g <> [] /\
              (word_count (join (u " ") g) <= max_chunk_size
               \/ exists sentence,
                    g = [sentence] /\ max_chunk_size < word_count sentence))
           groups.
Proof.
  unfold chunk_context.
  destruct (chunk_sentences_groups max_chunk_size
              (Re.split false sentence_boundary context))
    as (groups & Hcat & Hch & Hadm).
  exists groups. auto.
Qed.

(** C5, on the code. [chunk_context] on the empty string returns one chunk,
    the empty string, whatever the limit: [re.split] yields the single
    sentence [''], which the loop keeps as the open chunk. *)
Theorem chunk_context_empty_input (max_chunk_size : Z) :
  chunk_context [] max_chunk_size = [[]].
Proof.
  unfold chunk_context.
  change (Re.split false sentence_boundary []) with [[] : str].
  unfold chunk_sentences. simpl. unfold chunk_step. simpl.
  destruct (_ >? max_chunk_size); reflexivity.
Qed.

End ChunkerProperties.

(** ** The answer post-processor and the text normalizer *)

Section TextProperties.
Context `{UnicodeData}.

Lemma capitalize_first_total (answer : str) :
  exists answer', capitalize_first answer = inr answer'.
Proof.
  unfold capitalize_first.
  destruct answer as [|c rest]; simpl.
  - eexists. reflexivity.
  - destruct (uc_isalpha c); simpl; eexists; reflexivity.
Qed.

(** On a [str] no statement of the [try] block raises. *)
Lemma post_process_try_str (s : str) :
  exists s', post_process_try (PyStr s) = Returns (PyStr s').
Proof.
  unfold post_process_try, assign, on_str.
  cbn [mbind mret result_bind result_ret].
  match goal with
  | |- context [capitalize_first ?x] =>
      destruct (capitalize_first_total x) as [a ->]
  end.
  eexists. reflexivity.
Qed.

(** On anything else the first statement raises, before [answer] is
    assigned. *)
Lemma post_process_try_not_str (v : pyval) :
  (forall s, v <> PyStr s) ->
  post_process_try v = Raises TypeError v.
Proof.
  intros Hv. destruct v; try reflexivity. destruct (Hv s). reflexivity.
Qed.

(** C6. Whenever a statement of the post-processing pipeline raises, the
    local [answer] still holds the argument, [post_process_answer] returns
    that argument unchanged, and nothing is raised to the caller. *)
Theorem post_process_answer_fail_open (answer : pyval) (e : exn) (held : pyval) :
  post_process_try answer = Raises e held ->
  held = answer /\ post_process_answer answer = inr answer.
Proof.
  intros Hraise. unfold post_process_answer.
  destruct answer as [ | z | s | b ];
    try (rewrite post_process_try_not_str in * by discriminate;
         inversion Hraise; subst; split; reflexivity).
  destruct (post_process_try_str s) as [s' Hs].
  rewrite Hs in Hraise. discriminate.
Qed.

(** [post_process_answer] returns on every argument. *)
Lemma post_process_answer_returns (answer : pyval) :
  exists v, post_process_answer answer = inr v.
Proof.
  unfold post_process_answer.
  destruct (post_process_try answer); eexists; reflexivity.
Qed.

Lemma post_process_answer_str (s : str) :
  exists s', post_process_answer (PyStr s) = inr (PyStr s').
Proof.
  unfold post_process_answer.
  destruct (post_process_try_str s) as [s' ->]. eexists. reflexivity.
Qed.

(** C9, as the code has it. [clean_text] first applies the compatibility
    decomposition (form NFKD, without recomposition) to its argument, then
    strips the control characters, then collapses the whitespace, then
    tidies the punctuation. Compatibility characters are replaced and
    composed letters stay decomposed: the ligature U+FB01 becomes [fi], and
    U+00E9 becomes [e] followed by the combining acute accent. *)
Theorem clean_text_normalizes_first :
  (forall text : str,
     clean_text text
     = tidy_punctuation
         (collapse_whitespace (strip_control (uc_normalize NFKD text)))) /\
  clean_text (H := Latin1.ucd) [0xFB01%N] = u "fi" /\
  clean_text (H := Latin1.ucd) [0xE9%N] = [0x65%N; 0x301%N].
Proof.
  split; [intros text; reflexivity|].
  split; vm_compute; reflexivity.
Qed.

End TextProperties.

(** C9, as stated, fails: were the first step the canonical composition
    (form NFC), the ligature U+FB01 would come out of [clean_text]
    unchanged. *)
Lemma clean_text_is_not_canonical :
  ~ (forall (U : UnicodeData) (text : str),
       clean_text text
       = tidy_punctuation
           (collapse_whitespace (strip_control (uc_normalize NFC text)))).
Proof.
  intros Hclaim. specialize (Hclaim Latin1.ucd [0xFB01%N]).
  vm_compute in Hclaim. discriminate Hclaim.
Qed.

(** C6 at [None]: the first [re.sub] raises [TypeError] and the argument
    comes back. *)
Lemma post_process_answer_fail_open_witness :
  post_process_try (H := Latin1.ucd) PyNone = Raises TypeError PyNone /\
  post_process_answer (H := Latin1.ucd) PyNone = inr PyNone.
Proof.
  split; [reflexivity|].
  apply (post_process_answer_fail_open (H := Latin1.ucd) PyNone TypeError PyNone).
  reflexivity.
Defined.

(** ** The service *)

Section ServiceProperties.
Context `{UnicodeData} `{Models}.

#[local] Existing Instance M_ret.
#[local] Existing Instance M_bind.

Section Rules.
Context (R : relation world) `{!PreOrder R}.

Lemma holds_ret {A} (Q : A -> Prop) E a : Q a -> holds R Q E (mret a).
Proof. intros Ha w. split; [reflexivity | exact Ha]. Qed.

Lemma holds_throw {A} (Q : A -> Prop) (E : exn -> Prop) e :
  E e -> holds R Q E (throw e).
Proof. intros He w. split; [reflexivity | exact He]. Qed.

Lemma holds_lift {A} (Q : A -> Prop) (E : exn -> Prop) (r : result A) :
  (forall a, r = inr a -> Q a) -> (forall e, r = inl e -> E e) ->
  holds R Q E (lift r).
Proof.
  intros Hq He. destruct r as [e|a].
  - apply holds_throw. auto.
  - apply holds_ret. auto.
Qed.

Lemma holds_lift_model {A} (Q : A -> Prop) (E : exn -> Prop) (r : option A) :
  (forall a, r = Some a -> Q a) -> E RuntimeError ->
  holds R Q E (lift_model r).
Proof.
  intros Hq He. destruct r as [a|].
  - apply holds_ret. auto.
  - apply holds_throw. assumption.
Qed.

Lemma holds_lift_os {A} (Q : A -> Prop) (E : exn -> Prop) (r : option A) :
  (forall a, r = Some a -> Q a) -> E OSError ->
  holds R Q E (lift_os r).
Proof.
  intros Hq He. destruct r as [a|].
  - apply holds_ret. auto.
  - apply holds_throw. assumption.
Qed.

Lemma holds_get_world (Q : world -> Prop) E :
  (forall w, Q w) -> holds R Q E get_world.
Proof. intros Hq w. split; [reflexivity | apply Hq]. Qed.

Lemma holds_get_now (Q : nat -> Prop) E :
  (forall n, Q n) -> holds R Q E get_now.
Proof. intros Hq w. split; [reflexivity | apply Hq]. Qed.

Lemma holds_modify (Q : unit -> Prop) E f :
  (forall w, R w (f w)) -> Q tt -> holds R Q E (modify f).
Proof. intros Hr Hq w. split; [apply Hr | exact Hq]. Qed.

Lemma holds_emit (Q : unit -> Prop) E ev :
  (forall w, R w (log ev w)) -> Q tt -> holds R Q E (emit ev).
Proof. intros Hr Hq w. split; [apply Hr | exact Hq]. Qed.

Lemma holds_bind {A B} (Q1 : A -> Prop) (Q : B -> Prop) E
    (m : M A) (f : A -> M B) :
  holds R Q1 E m -> (forall a, Q1 a -> holds R Q E (f a)) ->
  holds R Q E (m ≫= f).
Proof.
  intros Hm Hf w. specialize (Hm w).
  unfold mbind, M_bind. destruct (m w) as [[a|e] w']; simpl in *.
  - destruct Hm as [Hr Ha]. destruct (Hf a Ha w') as [Hr' Hq].
    split; [etransitivity; eassumption | exact Hq].
  - exact Hm.
Qed.

Lemma holds_try_except {A} (Q : A -> Prop) (E1 E : exn -> Prop)
    (body : M A) (handler : exn -> M A) :
  holds R Q E1 body -> (forall e, E1 e -> holds R Q E (handler e)) ->
  holds R Q E (try_except body handler).
Proof.
  intros Hb Hh w. specialize (Hb w).
  unfold try_except. destruct (body w) as [[a|e] w']; simpl in *.
  - exact Hb.
  - destruct Hb as [Hr He]. destruct (Hh e He w') as [Hr' Hq].
    split; [etransitivity; eassumption | exact Hq].
Qed.

Lemma holds_weaken {A} (Q Q' : A -> Prop) (E E' : exn -> Prop) (m : M A) :
  holds R Q E m -> (forall a, Q a -> Q' a) -> (forall e, E e -> E' e) ->
  holds R Q' E' m.
Proof.
  intros Hm Hq He w. destruct (Hm w) as [Hr Hp]. split; [exact Hr|].
  destruct (fst (m w)); auto.
Qed.

(** [except Exception as e: raise e] changes nothing. *)
Lemma holds_reraise {A} (Q : A -> Prop) E (body : M A) :
  holds R Q E body -> holds R Q E (try_except body (fun e => throw e)).
Proof.
  intros Hb. eapply holds_try_except; [exact Hb|].
  intros e He. apply holds_throw. exact He.
Qed.

Lemma holds_http_guard {A} (Q : A -> Prop) (E1 E : exn -> Prop) detail
    (body : M A) :
  holds R Q E1 body ->
  (forall c d, E1 (HTTPException c d) -> E (HTTPException c d)) ->
  E (HTTPException 500 detail) ->
  holds R Q E (http_guard detail body).
Proof.
  intros Hb Hhttp H500. eapply holds_try_except; [exact Hb|].
  intros e He. destruct e; apply holds_throw; auto.
Qed.

End Rules.

(** *** What the retrieval and generation steps do to the state *)

Section Steps.
Context (R : relation world) `{!PreOrder R}.

(** The next statement of a [do]-block, proved by [tac]. *)
Ltac next_with tac :=
  eapply holds_bind; [assumption | tac | intros ? ?].

(** A statement that reads the clock, logs a call or calls a model, when
    nothing is needed of its result. *)
Ltac next_plain :=
  next_with ltac:(first
    [ apply holds_get_now with (Q := fun _ => True)
    | apply holds_emit with (Q := fun _ => True)
    | apply holds_lift_model with (Q := fun _ => True)
    | apply holds_lift with (Q := fun _ => True) ]; auto).

Lemma generate_embeddings_holds (texts : list str) :
  encode_contract ->
  (forall w, R w (log (EvGenerateEmbeddings texts) w)) ->
  holds R (fun es => es = map embed texts) (fun e => e = RuntimeError)
        (generate_embeddings texts).
Proof.
  intros Hc Hlog. unfold generate_embeddings.
  apply holds_reraise; [assumption|].
  do 2 next_plain.
  apply holds_lift_model; [assumption | | reflexivity].
  intros es Hes. eapply Hc, Hes.
Qed.

(** Without the contract of [encode], nothing is known of the vectors. *)
Lemma generate_embeddings_effect (texts : list str) :
  (forall w, R w (log (EvGenerateEmbeddings texts) w)) ->
  holds R (fun _ => True) (fun e => e = RuntimeError)
        (generate_embeddings texts).
Proof.
  intros Hlog. unfold generate_embeddings.
  apply holds_reraise; [assumption|].
  do 2 next_plain.
  apply holds_lift_model; auto.
Qed.

Lemma mapM_index_error (cs : list str) (indices : list nat) e :
  mapM (fun idx => match cs !! idx with
                   | Some c => inr c
                   | None => raise IndexError
                   end) indices = inl e -> e = IndexError.
Proof.
  induction indices as [|i indices IH]; simpl; [discriminate|].
  unfold mbind, result_bind.
  destruct (cs !! i) as [c|]; [|unfold raise; congruence].
  destruct (mapM _ indices) as [e'|l]; [|discriminate].
  intros Heq. inversion Heq; subst. apply IH. reflexivity.
Qed.

Lemma retrieve_relevant_chunks_holds q (cs : list str) es top_k :
  (forall w, R w (log (EvEncodeQuestion q) w)) ->
  holds R (fun _ => True) (fun e => e = RuntimeError \/ e = IndexError)
        (retrieve_relevant_chunks q cs es top_k).
Proof.
  intros Hlog. unfold retrieve_relevant_chunks.
  apply holds_reraise; [assumption|].
  do 4 next_plain.
  destruct (_ =? 0).
  - apply holds_ret; auto.
  - next_plain.
    apply holds_lift; [assumption | auto |].
    intros e He. right. eapply mapM_index_error, He.
Qed.

(** [generate_fluent_answer] never raises: its handler returns. *)
Lemma generate_fluent_answer_holds fuel q (cs : list str) :
  (forall w p, R w (log (EvGenerate p) w)) ->
  holds R (fun _ => True) (fun _ => False) (generate_fluent_answer fuel q cs).
Proof.
  intros Hlog.
  induction fuel as [|fuel IH]; simpl;
    (eapply holds_try_except with (E1 := fun _ => True);
     [assumption | | intros e _; apply holds_ret; auto]);
    (destruct cs as [|c cs]; [apply holds_ret; auto|]);
    do 5 next_plain;
    (destruct (_ <? _)%nat; [|apply holds_ret; auto]).
  - apply holds_throw; [assumption | exact I].
  - eapply holds_weaken; [exact IH | auto | contradiction].
Qed.

Lemma answer_from_index_holds fuel request e :
  (forall w q, R w (log (EvEncodeQuestion q) w)) ->
  (forall w p, R w (log (EvGenerate p) w)) ->
  holds R (fun _ => True) (fun e => e = RuntimeError \/ e = IndexError)
        (answer_from_index fuel request e).
Proof.
  intros Hq Hg. unfold answer_from_index.
  next_with ltac:(apply retrieve_relevant_chunks_holds; auto).
  destruct a as [|c rel]; [apply holds_ret; auto|].
  next_with ltac:(eapply holds_weaken with (Q' := fun _ => True);
                  [apply generate_fluent_answer_holds; auto
                  | auto | contradiction]).
  apply holds_ret; auto.
Qed.

End Steps.

(** *** The relations between the state before and after a call *)

#[local] Instance any_change_preorder : PreOrder any_change.
Proof. split; [intros w | intros w1 w2 w3 _ _]; exact I. Qed.

#[local] Instance keeps_cache_ok_preorder : PreOrder keeps_cache_ok.
Proof.
  split; [intros w Hw; exact Hw | intros w1 w2 w3 H12 H23 Hw; auto].
Qed.

Lemma chunk_calls_app evs1 evs2 :
  chunk_calls (evs1 ++ evs2) = (chunk_calls evs1 + chunk_calls evs2)%nat.
Proof. unfold chunk_calls. rewrite filter_app, length_app. reflexivity. Qed.

Lemma embed_calls_app evs1 evs2 :
  embed_calls (evs1 ++ evs2) = (embed_calls evs1 + embed_calls evs2)%nat.
Proof. unfold embed_calls. rewrite filter_app, length_app. reflexivity. Qed.

#[local] Instance quiet_preorder : PreOrder quiet.
Proof.
  split.
  - intros w. split; [reflexivity|]. split; [reflexivity|].
    exists []. rewrite app_nil_r. auto.
  - intros w1 w2 w3 (Hd1 & Hc1 & evs1 & Ht1 & Hk1 & He1)
                    (Hd2 & Hc2 & evs2 & Ht2 & Hk2 & He2).
    split; [congruence|]. split; [congruence|].
    exists (evs1 ++ evs2). rewrite Ht2, Ht1, <- app_assoc.
    rewrite chunk_calls_app, embed_calls_app, Hk1, Hk2, He1, He2. auto.
Qed.

Lemma quiet_log ev w :
  is_chunking ev = false -> is_embedding ev = false -> quiet w (log ev w).
Proof.
  intros Hk He. split; [reflexivity|]. split; [reflexivity|].
  exists [ev]. split; [reflexivity|].
  unfold chunk_calls, embed_calls.
  rewrite !filter_cons_False, !filter_nil by congruence. auto.
Qed.

Lemma keeps_cache_ok_log ev w : keeps_cache_ok w (log ev w).
Proof. intros Hw. exact Hw. Qed.

(** *** Retrieval *)

Lemma mapM_result_cons {A B} (f : A -> result B) x l :
  mapM f (x :: l) = (y ← f x; k ← mapM f l; mret (y :: k)).
Proof. reflexivity. Qed.



(** *** Generation *)

(** C3. With an empty list of relevant chunks [generate_fluent_answer]
    returns the fixed apology, whatever the question and the recursion
    depth allowed, and leaves the state as it is: no call to the generator
    is logged. *)
Theorem generate_without_chunks (fuel : nat) (question : str) (w : world) :
  generate_fluent_answer fuel question [] w
  = (Done (PyStr apology_no_chunks), w).
Proof. destruct fuel; reflexivity. Qed.

(** The body of [generate_fluent_answer] after one unfolding. *)
Lemma generate_fluent_answer_unfold fuel question (relevant_chunks : list str) :
  generate_fluent_answer fuel question relevant_chunks
  = try_except
      (match relevant_chunks with
       | [] => mret (PyStr apology_no_chunks)
       | _ =>
           let combined_context := join (u " ") relevant_chunks in
           let input_text := input_text_of question combined_context in
           n ← get_now;
           _ ← emit (EvGenerate input_text);
           answer ← lift_model (t5 n input_text);
           answer ← lift (post_process_answer (PyStr answer));
           words ← lift (count_words answer);
           if (words <? 5)%nat
           then match fuel with
                | O => throw RecursionError
                | S fuel' =>
                    generate_fluent_answer fuel' question relevant_chunks
                end
           else mret answer
       end)
      (fun _ => mret (PyStr apology_failed)).
Proof. destruct fuel; reflexivity. Qed.

Lemma generate_fluent_answer_never_raises fuel question cs w e :
  fst (generate_fluent_answer fuel question cs w) <> Raised e.
Proof.
  destruct (generate_fluent_answer_holds any_change fuel question cs
              (fun _ _ => I) w) as [_ Hq].
  intros Heq. rewrite Heq in Hq. exact Hq.
Qed.

(** One retry: a too short answer makes the call behave as a fresh call
    with the same question and chunks, one level deeper. *)
Lemma generate_retries question (relevant_chunks : list str) fuel w raw :
  relevant_chunks <> [] ->
  t5 (now w) (input_text_of question (join (u " ") relevant_chunks)) = Some raw ->
  too_short raw ->
  generate_fluent_answer (S fuel) question relevant_chunks w
  = generate_fluent_answer fuel question relevant_chunks
      (log (EvGenerate (input_text_of question (join (u " ") relevant_chunks))) w).
Proof.
  intros Hne Ht5 (a & Hpp & Hlen).
  rewrite (generate_fluent_answer_unfold (S fuel)).
  remember (input_text_of question (join (u " ") relevant_chunks)) as prompt.
  destruct relevant_chunks as [|c cs]; [congruence|].
  apply Nat.ltb_lt in Hlen.
  unfold try_except, mbind, M_bind, get_now, emit.
  cbv zeta. rewrite <- Heqprompt, Ht5.
  cbn [lift_model mret M_ret]. rewrite Hpp.
  cbn [lift mret M_ret count_words result_ret]. rewrite Hlen.
  destruct (generate_fluent_answer fuel question (c :: cs) _) as [[x|e] w'] eqn:Heq;
    try reflexivity.
  exfalso. eapply generate_fluent_answer_never_raises. rewrite Heq. reflexivity.
Qed.

(** At the recursion limit the retry raises [RecursionError] inside the
    [try] block, and the handler answers with the second apology. *)
Lemma generate_at_the_limit question (relevant_chunks : list str) w raw :
  relevant_chunks <> [] ->
  t5 (now w) (input_text_of question (join (u " ") relevant_chunks)) = Some raw ->
  too_short raw ->
  generate_fluent_answer 0 question relevant_chunks w
  = (Done (PyStr apology_failed),
     log (EvGenerate (input_text_of question (join (u " ") relevant_chunks))) w).
Proof.
  intros Hne Ht5 (a & Hpp & Hlen).
  rewrite (generate_fluent_answer_unfold 0).
  remember (input_text_of question (join (u " ") relevant_chunks)) as prompt.
  destruct relevant_chunks as [|c cs]; [congruence|].
  apply Nat.ltb_lt in Hlen.
  unfold try_except, mbind, M_bind, get_now, emit.
  cbv zeta. rewrite <- Heqprompt, Ht5.
  cbn [lift_model mret M_ret]. rewrite Hpp.
  cbn [lift mret M_ret count_words result_ret]. rewrite Hlen. reflexivity.
Qed.

(** C8, as the code has it. When the post-processed answer has fewer than
    five words, [generate_fluent_answer] calls itself with the same
    question and the same chunks, and nothing in the source bounds the
    depth of this recursion. Against a generator whose answers are always
    too short the retries go on as deep as the interpreter allows: with
    [fuel] levels left the generator is called [fuel + 1] times. The
    function returns all the same: the [RecursionError] of the last retry
    is raised inside the [try] block, and the result is the second
    apology. *)
Theorem retry_runs_to_the_recursion_limit (question : str)
    (relevant_chunks : list str) :
  relevant_chunks <> [] ->
  persistently_short ->
  let prompt := input_text_of question (join (u " ") relevant_chunks) in
  (forall fuel w,
     generate_fluent_answer (S fuel) question relevant_chunks w
     = generate_fluent_answer fuel question relevant_chunks
         (log (EvGenerate prompt) w)) /\
  (forall fuel w,
     generate_fluent_answer fuel question relevant_chunks w
     = (Done (PyStr apology_failed), after_generations (S fuel) prompt w)).
Proof.
  intros Hne Hshort prompt.
  assert (Hstep : forall fuel w,
     generate_fluent_answer (S fuel) question relevant_chunks w
     = generate_fluent_answer fuel question relevant_chunks
         (log (EvGenerate prompt) w)).
  { intros fuel w. destruct (Hshort (now w) prompt) as (raw & Ht5 & Hraw).
    eapply generate_retries; eassumption. }
  split; [exact Hstep|].
  induction fuel as [|fuel IH]; intros w.
  - destruct (Hshort (now w) prompt) as (raw & Ht5 & Hraw).
    erewrite generate_at_the_limit by eassumption. reflexivity.
  - rewrite Hstep, IH. unfold after_generations, log. simpl.
    rewrite <- app_assoc. reflexivity.
Qed.

(** *** The endpoints and the dictionary of embeddings *)

Ltac bind_with tac :=
  eapply holds_bind; [typeclasses eauto | tac | intros ? ?].

Ltac plain_step :=
  first [ apply holds_get_world with (Q := fun _ => True)
        | apply holds_get_now with (Q := fun _ => True)
        | apply holds_emit with (Q := fun _ => True)
        | apply holds_modify with (Q := fun _ => True) ];
  try typeclasses eauto; auto.

Lemma http_guard_world {A} detail (body : M A) w :
  snd (http_guard detail body w) = snd (body w).
Proof.
  unfold http_guard, try_except.
  destruct (body w) as [[a|e] w']; try reflexivity.
  destruct e; reflexivity.
Qed.

Lemma http_guard_done {A} detail (body : M A) w a :
  fst (http_guard detail body w) = Done a <-> fst (body w) = Done a.
Proof.
  unfold http_guard, try_except.
  destruct (body w) as [[a'|e] w']; try reflexivity.
  destruct e; simpl; split; discriminate.
Qed.

(** A stored entry is read as it is, whatever the document says. *)
Lemma cached_index_hit id document w e :
  document_embeddings w !! id = Some e ->
  cached_index id document w = (Done e, w).
Proof.
  intros Hhit. unfold cached_index, mbind, M_bind, get_world.
  cbv beta iota. rewrite Hhit. cbn [mret M_ret]. rewrite Hhit. reflexivity.
Qed.

Lemma cached_index_builds_once id document w :
  builds_once w (snd (cached_index id document w)).
Proof.
  unfold cached_index, mbind, M_bind, get_world. cbv beta iota.
  destruct (document_embeddings w !! id) as [e|] eqn:Hhit.
  - cbn [mret M_ret]. rewrite Hhit. exists []. rewrite app_nil_r.
    split; [reflexivity|]. split; apply Nat.le_0_l.
  - unfold chunk_content. destruct (content document) as [text|].
    + unfold mbind, M_bind, emit. cbv beta iota. cbn [mret M_ret].
      destruct (chunk_context_default text) as [|c cs].
      * exists [EvChunkContext text]. split; [reflexivity|].
        split; [apply Nat.le_refl | apply Nat.le_0_l].
      * unfold generate_embeddings, store, modify, try_except, mbind, M_bind,
          get_now, emit. cbv beta iota.
        destruct (encode _ (c :: cs)) as [es|]; cbn [lift_model mret M_ret throw];
          cbv beta iota; cbn [document_embeddings trace log].
        -- rewrite lookup_insert_eq. cbn [mret M_ret snd trace].
           exists [EvChunkContext text; EvGenerateEmbeddings (c :: cs)].
           split; [cbn [trace log]; rewrite <- app_assoc; reflexivity|].
           split; apply Nat.le_refl.
        -- cbn [mret M_ret snd trace log].
           exists [EvChunkContext text; EvGenerateEmbeddings (c :: cs)].
           split; [cbn [trace log]; rewrite <- app_assoc; reflexivity|].
           split; apply Nat.le_refl.
    + exists []. rewrite app_nil_r. split; [reflexivity|].
      split; apply Nat.le_0_l.
Qed.

Lemma answer_from_index_quiet fuel request e w :
  quiet w (snd (answer_from_index fuel request e w)).
Proof.
  apply (answer_from_index_holds quiet fuel request e).
  - intros w' q. apply quiet_log; reflexivity.
  - intros w' p'. apply quiet_log; reflexivity.
Qed.

(** A question about a document that has an entry builds nothing. *)
Lemma ask_question_hit fuel request w e :
  document_embeddings w !! document_id request = Some e ->
  quiet w (snd (ask_question fuel request w)).
Proof.
  intros Hhit. unfold ask_question. rewrite http_guard_world.
  unfold mbind at 1, M_bind at 1, get_world. cbv beta iota.
  destruct (db w !! document_id request) as [document|].
  - unfold mbind, M_bind. rewrite (cached_index_hit _ _ _ _ Hhit).
    apply answer_from_index_quiet.
  - reflexivity.
Qed.

(** Any question builds at most once. *)
Lemma ask_question_builds_once fuel request w :
  builds_once w (snd (ask_question fuel request w)).
Proof.
  unfold ask_question. rewrite http_guard_world.
  unfold mbind at 1, M_bind at 1, get_world. cbv beta iota.
  destruct (db w !! document_id request) as [document|].
  - unfold mbind, M_bind.
    pose proof (cached_index_builds_once (document_id request) document w)
      as (evs & Ht & Hk & He).
    destruct (cached_index (document_id request) document w)
      as [[e|x] wc]; simpl in Ht |- *;
      [ | exists evs; auto ].
    destruct (answer_from_index_quiet fuel request e wc)
      as (_ & _ & evs' & Ht' & Hk' & He').
    exists (evs ++ evs'). rewrite Ht', Ht, <- app_assoc.
    rewrite chunk_calls_app, embed_calls_app, Hk', He', !Nat.add_0_r. auto.
  - exists []. rewrite app_nil_r. split; [reflexivity|].
    split; apply Nat.le_0_l.
Qed.

(** C4. Once a question about a document has left an entry for it in the
    dictionary, a second question about the same document reads that
    entry, whatever the table of documents now says: the second call logs
    no chunking and no embedding of chunks and leaves the dictionary as it
    is; and over the two calls chunks are embedded at most once. *)
Theorem cache_is_reused (fuel1 fuel2 : nat) (request1 request2 : QuestionRequest)
    (w : world) (db' : gmap Z Document) (e : index_entry) :
  document_id request2 = document_id request1 ->
  document_embeddings (snd (ask_question fuel1 request1 w))
    !! document_id request1 = Some e ->
  let w1 := external_write db' (snd (ask_question fuel1 request1 w)) in
  let w2 := snd (ask_question fuel2 request2 w1) in
  (forall document,
     cached_index (document_id request2) document w1 = (Done e, w1)) /\
  document_embeddings w2 = document_embeddings w1 /\
  exists evs1 evs2,
    trace w1 = trace w ++ evs1 /\
    trace w2 = trace w1 ++ evs2 /\
    chunk_calls evs2 = 0%nat /\
    embed_calls evs2 = 0%nat /\
    (embed_calls (evs1 ++ evs2) <= 1)%nat.
Proof.
  intros Hid Hstored w1 w2.
  assert (Hhit : document_embeddings w1 !! document_id request2 = Some e).
  { rewrite Hid. exact Hstored. }
  split.
  - intros document. apply cached_index_hit. exact Hhit.
  - destruct (ask_question_hit fuel2 request2 w1 e Hhit)
      as (_ & Hcache & evs2 & Ht2 & Hk2 & He2).
    destruct (ask_question_builds_once fuel1 request1 w)
      as (evs1 & Ht1 & _ & He1).
    split; [exact Hcache|].
    exists evs1, evs2. split; [exact Ht1|]. split; [exact Ht2|].
    split; [exact Hk2|]. split; [exact He2|].
    rewrite embed_calls_app, He2. lia.
Qed.

(** *** The invariant of the dictionary *)

Lemma keeps_cache_ok_store id e w :
  entry_ok e ->
  keeps_cache_ok w
    (MkWorld (db w) (<[id := e]> (document_embeddings w)) (trace w)).
Proof.
  intros He Hw id' e'. simpl. rewrite lookup_insert.
  case_decide; [intros [= <-]; exact He | apply Hw].
Qed.

Lemma keeps_cache_ok_delete id w :
  keeps_cache_ok w
    (MkWorld (db w) (delete id (document_embeddings w)) (trace w)).
Proof.
  intros Hw id' e'. simpl. rewrite lookup_delete.
  case_decide; [discriminate | apply Hw].
Qed.

Lemma keeps_cache_ok_db (f : world -> gmap Z Document) w :
  keeps_cache_ok w (MkWorld (f w) (document_embeddings w) (trace w)).
Proof. intros Hw. exact Hw. Qed.

Lemma build_keeps_cache_ok id (cs : list str) :
  encode_contract ->
  holds keeps_cache_ok (fun _ => True) (fun _ => True)
    (embeddings ← generate_embeddings cs; store id (MkEntry cs embeddings)).
Proof.
  intros Hc.
  bind_with ltac:(eapply holds_weaken;
                  [apply (generate_embeddings_holds keeps_cache_ok cs Hc);
                   intros; apply keeps_cache_ok_log
                  | intros a Ha; exact Ha | auto]).
  simpl in *. subst. apply holds_modify; try typeclasses eauto; [|exact I].
  intros w. apply keeps_cache_ok_store. reflexivity.
Qed.

Lemma cached_index_keeps_cache_ok id document :
  encode_contract ->
  holds keeps_cache_ok (fun _ => True) (fun _ => True)
        (cached_index id document).
Proof.
  intros Hc. unfold cached_index.
  bind_with plain_step.
  bind_with idtac.
  - destruct (document_embeddings _ !! id).
    + apply holds_ret with (Q := fun _ => True); try typeclasses eauto; try exact I.
    + bind_with idtac.
      * unfold chunk_content. destruct (content document).
        -- bind_with ltac:(plain_step; intros; apply keeps_cache_ok_log).
           apply holds_ret with (Q := fun _ => True); try typeclasses eauto; try exact I.
        -- apply holds_throw; try typeclasses eauto; try exact I.
      * destruct a0 as [|c cs].
        -- apply holds_throw; try typeclasses eauto; try exact I.
        -- apply build_keeps_cache_ok. exact Hc.
  - bind_with plain_step.
    destruct (document_embeddings _ !! id).
    + apply holds_ret; try typeclasses eauto; try exact I.
    + apply holds_throw; try typeclasses eauto; try exact I.
Qed.

Lemma ask_question_keeps_cache_ok fuel request :
  encode_contract ->
  holds keeps_cache_ok (fun _ => True) (fun _ => True)
        (ask_question fuel request).
Proof.
  intros Hc. unfold ask_question.
  apply holds_http_guard with (E1 := fun _ => True); auto;
    try typeclasses eauto.
  bind_with plain_step.
  destruct (db _ !! document_id request).
  - bind_with ltac:(apply cached_index_keeps_cache_ok; exact Hc).
    eapply holds_weaken;
      [apply (answer_from_index_holds keeps_cache_ok);
       intros; apply keeps_cache_ok_log | auto | auto].
  - apply holds_throw; try typeclasses eauto; try exact I.
Qed.

Lemma upload_pdf_keeps_cache_ok file_name timestamp save pdf id :
  encode_contract ->
  holds keeps_cache_ok (fun _ => True) (fun _ => True)
        (upload_pdf file_name timestamp save pdf id).
Proof.
  intros Hc. unfold upload_pdf.
  apply holds_http_guard with (E1 := fun _ => True); auto;
    try typeclasses eauto.
  destruct (negb _); [apply holds_throw; try typeclasses eauto; try exact I|].
  bind_with ltac:(apply holds_lift_os with (Q := fun _ => True);
                  try typeclasses eauto; auto).
  bind_with idtac.
  { instantiate (1 := fun _ => True).
    destruct (extract_text_from_pdf pdf) as [[]|t];
      first [ apply holds_ret; try typeclasses eauto; try exact I
            | apply holds_throw; try typeclasses eauto; try exact I ]. }
  bind_with idtac.
  { instantiate (1 := fun _ => True). unfold db_add.
    bind_with plain_step.
    destruct (_ || _); [apply holds_throw; try typeclasses eauto; try exact I|].
    bind_with ltac:(plain_step; intros;
                    apply (keeps_cache_ok_db (fun w => <[id := _]> (db w)))).
    apply holds_ret; try typeclasses eauto; try exact I. }
  bind_with ltac:(plain_step; intros; apply keeps_cache_ok_log).
  bind_with idtac.
  { instantiate (1 := fun _ => True).
    destruct (chunk_context_default _) as [|c cs].
    - apply holds_ret; try typeclasses eauto; try exact I.
    - apply build_keeps_cache_ok. exact Hc. }
  apply holds_ret; try typeclasses eauto; try exact I.
Qed.

Lemma delete_document_keeps_cache_ok removal id :
  holds keeps_cache_ok (fun _ => True) (fun _ => True)
        (delete_document removal id).
Proof.
  unfold delete_document.
  apply holds_http_guard with (E1 := fun _ => True); auto;
    try typeclasses eauto.
  bind_with plain_step.
  destruct (db _ !! id) as [document|];
    [|apply holds_throw; try typeclasses eauto; try exact I].
  bind_with idtac.
  { instantiate (1 := fun _ => True).
    destruct (filename document);
      [ apply holds_ret; try typeclasses eauto; try exact I
      | apply holds_throw; try typeclasses eauto; try exact I ]. }
  bind_with ltac:(apply holds_lift_os with (Q := fun _ => True);
                  try typeclasses eauto; auto).
  bind_with ltac:(plain_step; intros; apply keeps_cache_ok_delete).
  bind_with ltac:(plain_step; intros;
                  apply (keeps_cache_ok_db (fun w => delete id (db w)))).
  apply holds_ret; try typeclasses eauto; try exact I.
Qed.

(** C7. In every state the service reaches, every entry of
    [document_embeddings], whether stored by [upload_pdf] or by
    [ask_question], holds as many embeddings as chunks, and the embedding
    at each position is the embedding of the chunk at that position;
    provided [encode] returns, as documented, one vector per text in the
    order of the texts. *)
Theorem cache_entries_are_parallel (w : world) (id : Z) (e : index_entry) :
  encode_contract ->
  reachable w ->
  document_embeddings w !! id = Some e ->
  length (embeddings e) = length (chunks e) /\
  forall i c, chunks e !! i = Some c -> embeddings e !! i = Some (embed c).
Proof.
  intros Hc Hreach.
  assert (Hok : cache_ok w).
  { induction Hreach as [ | w file_name timestamp save pdf id' _ IH
                          | w fuel request _ IH | w removal id' _ IH
                          | w db' _ IH ].
    - intros id' e'. simpl. rewrite lookup_empty. discriminate.
    - apply (upload_pdf_keeps_cache_ok file_name timestamp save pdf id' Hc w), IH.
    - apply (ask_question_keeps_cache_ok fuel request Hc w), IH.
    - apply (delete_document_keeps_cache_ok removal id' w), IH.
    - exact IH. }
  intros Hentry. specialize (Hok id e Hentry). unfold entry_ok in Hok.
  rewrite Hok. split; [apply length_map|].
  intros i c Hi. rewrite list_lookup_fmap, Hi. reflexivity.
Qed.

(** *** The rejection for want of chunks *)

Lemma other_details_differ :
  HTTPException 500 (u "Error processing question") <> no_context_error.
Proof.
  unfold no_context_error. intros Heq. injection Heq as Heq.
  vm_compute in Heq. discriminate Heq.
Qed.

Lemma chunk_content_nonempty content :
  holds any_change (fun cs : list str => cs <> [])
        (fun e => e <> no_context_error) (chunk_content content).
Proof.
  unfold chunk_content. destruct content as [text|].
  - bind_with ltac:(plain_step; intros; exact I).
    apply holds_ret; try typeclasses eauto.
    apply chunk_context_nonempty.
  - apply holds_throw; try typeclasses eauto. discriminate.
Qed.

Lemma cached_index_never_rejects id document :
  holds any_change (fun _ => True) (fun e => e <> no_context_error)
        (cached_index id document).
Proof.
  unfold cached_index.
  bind_with plain_step.
  bind_with idtac.
  - instantiate (1 := fun _ => True).
    destruct (document_embeddings _ !! id).
    + apply holds_ret; try typeclasses eauto; exact I.
    + bind_with ltac:(apply chunk_content_nonempty).
      destruct a0 as [|c cs]; [congruence|].
      bind_with ltac:(eapply holds_weaken with (Q' := fun _ => True);
                      [apply (generate_embeddings_effect any_change);
                       intros; exact I
                      | auto | intros e ->; discriminate]).
      apply holds_modify; try typeclasses eauto; [intros; exact I | exact I].
  - bind_with plain_step.
    destruct (document_embeddings _ !! id).
    + apply holds_ret; try typeclasses eauto; exact I.
    + apply holds_throw; try typeclasses eauto. discriminate.
Qed.

(** C10. [chunk_context] returns at least one chunk on every string, the
    empty string included; so [ask_question] never answers with the
    rejection it keeps for a document without chunks. *)
Theorem no_chunks_branch_unreachable :
  (forall (context : str) (max_chunk_size : Z),
     chunk_context context max_chunk_size <> []) /\
  (forall (fuel : nat) (request : QuestionRequest) (w : world),
     fst (ask_question fuel request w) <> Raised no_context_error).
Proof.
  split; [apply chunk_context_nonempty|].
  intros fuel request w.
  assert (Hq : holds any_change (fun _ : QuestionResponse => True)
                 (fun e => e <> no_context_error)
                 (ask_question fuel request)).
  { unfold ask_question.
    apply holds_http_guard with (E1 := fun e => e <> no_context_error);
      try typeclasses eauto; [|auto|apply other_details_differ].
    bind_with plain_step.
    destruct (db _ !! document_id request).
    - bind_with ltac:(apply cached_index_never_rejects).
      eapply holds_weaken;
        [apply (answer_from_index_holds any_change); intros; exact I
        | auto | intros e [-> | ->]; discriminate].
    - apply holds_throw; try typeclasses eauto. discriminate. }
  destruct (Hq w) as [_ He]. intros Heq. rewrite Heq in He.
  apply He. reflexivity.
Qed.

End ServiceProperties.

(** ** The concrete models *)

Section DemoProperties.

Lemma indexed_elem (scores : list Z) (s : Z) (i : nat) :
  (s, i) ∈ Demo.indexed scores <-> scores !! i = Some s.
Proof.
  unfold Demo.indexed. rewrite list_elem_of_lookup. split.
  - intros [p Hp]. apply lookup_zip_Some in Hp as [Hs Hi].
    apply lookup_seq in Hi as [-> _]. exact Hs.
  - intros Hs. exists i. apply lookup_zip_Some. split; [exact Hs|].
    apply lookup_seq. split; [reflexivity|].
    eapply lookup_lt_Some, Hs.
Qed.

Lemma indexed_positions (scores : list Z) :
  (Demo.indexed scores).*2 = seq 0 (length scores).
Proof. unfold Demo.indexed. apply snd_zip. rewrite length_seq. lia. Qed.

Lemma sorted_lookup {A} (R : relation A) (l : list A) a b x y :
  StronglySorted R l ->
  l !! a = Some x -> l !! b = Some y -> (a < b)%nat -> R x y.
Proof.
  intros Hs Ha Hb Hab.
  rewrite <- (take_drop (S a) l) in Hs.
  eapply StronglySorted_app_1_elem_of; [exact Hs | |].
  - apply elem_of_take. exists a. split; [exact Ha | lia].
  - apply list_elem_of_lookup. exists (b - S a)%nat.
    rewrite lookup_drop. replace (S a + (b - S a))%nat with b by lia.
    exact Hb.
Qed.

Context (R : relation (Z * nat)) `{!RelDecision R} `{!Total R}
        `{!Transitive R}.
Hypothesis R_by_score : forall x y, R x y -> x.1 >= y.1.

Lemma topk_sorting_contract works reply :
  topk_contract (H0 := Demo.models R works reply).
Proof using R_by_score Total0 Transitive0.
  intros scores k. cbn [topk score score_ge Demo.models] in *. split.
  - intros Hk. unfold Demo.topk_sorting.
    rewrite bool_decide_eq_true_2 by exact Hk.
    set (l := merge_sort R (Demo.indexed scores)).
    assert (Hperm : l ≡ₚ Demo.indexed scores)
      by apply merge_sort_Permutation.
    assert (Hsorted : StronglySorted R l)
      by (apply StronglySorted_merge_sort; assumption).
    assert (Hlen : length l = length scores).
    { rewrite Hperm. unfold Demo.indexed.
      rewrite length_zip, length_seq. lia. }
    assert (Hmem : forall p s i, l !! p = Some (s, i) -> scores !! i = Some s).
    { intros p s i Hp. apply indexed_elem. rewrite <- Hperm.
      apply list_elem_of_lookup. eauto. }
    assert (Hnd : NoDup (l.*2)).
    { rewrite Hperm, indexed_positions. apply NoDup_seq. }
    exists (map snd (take (Z.to_nat k) l)).
    split; [reflexivity|].
    split; [rewrite length_map, length_take; lia|].
    split.
    { change (map snd (take (Z.to_nat k) l)) with ((take (Z.to_nat k) l).*2).
      rewrite fmap_take.
      eapply sublist_NoDup; [exact Hnd | apply sublist_take]. }
    split.
    { intros i Hi. apply list_elem_of_fmap in Hi as ([s i'] & -> & Hin).
      apply elem_of_take in Hin as (p & Hp & _).
      eapply lookup_lt_Some, Hmem, Hp. }
    split.
    { intros a b i j si sj Ha Hb Hab Hi Hj.
      rewrite list_lookup_fmap in Ha, Hb.
      destruct (take (Z.to_nat k) l !! a) as [[sa ia]|] eqn:Hla; [|discriminate].
      destruct (take (Z.to_nat k) l !! b) as [[sb ib]|] eqn:Hlb; [|discriminate].
      simpl in Ha, Hb. inversion Ha; inversion Hb; subst ia ib.
      apply lookup_take_Some in Hla as [Hla _].
      apply lookup_take_Some in Hlb as [Hlb _].
      pose proof (Hmem _ _ _ Hla) as Hsa. pose proof (Hmem _ _ _ Hlb) as Hsb.
      rewrite Hi in Hsa. rewrite Hj in Hsb.
      inversion Hsa; inversion Hsb; subst sa sb.
      apply Z.geb_le.
      destruct (decide (a = b)) as [->|Hne].
      - rewrite Hla in Hlb. inversion Hlb. lia.
      - assert (Hr : R (si, i) (sj, j))
          by (eapply (sorted_lookup R l a b); eauto; lia).
        apply R_by_score in Hr. simpl in Hr. lia. }
    { intros i j si sj Hi Hj Hsi Hsj.
      apply list_elem_of_fmap in Hi as ([s i'] & Heq & Hin).
      simpl in Heq. subst i'.
      apply elem_of_take in Hin as (a & Ha & Hak).
      pose proof (Hmem _ _ _ Ha) as Hs. rewrite Hsi in Hs.
      inversion Hs; subst s.
      assert (Hjl : (sj, j) ∈ l)
        by (rewrite Hperm; apply indexed_elem; exact Hsj).
      apply list_elem_of_lookup in Hjl as [b Hb].
      assert (Hkb : (Z.to_nat k <= b)%nat).
      { destruct (decide (Z.to_nat k <= b)%nat) as [Hle|Hgt]; [exact Hle|].
        exfalso. apply Hj. apply list_elem_of_fmap. exists (sj, j).
        split; [reflexivity|]. apply elem_of_take. exists b.
        split; [exact Hb | lia]. }
      assert (Hr : R (si, i) (sj, j))
        by (eapply (sorted_lookup R l a b); eauto; lia).
      apply R_by_score in Hr. simpl in Hr. apply Z.geb_le. lia. }
  - intros Hk. unfold Demo.topk_sorting.
    rewrite bool_decide_eq_false_2 by exact Hk. reflexivity.
Qed.

End DemoProperties.

#[local] Instance earlier_first_total : Total Demo.earlier_first.
Proof. intros [s1 i1] [s2 i2]. unfold Demo.earlier_first. simpl. lia. Qed.

#[local] Instance earlier_first_transitive : Transitive Demo.earlier_first.
Proof.
  intros [s1 i1] [s2 i2] [s3 i3]. unfold Demo.earlier_first. simpl. lia.
Qed.

Lemma earlier_first_contract works reply :
  topk_contract (H0 := Demo.models Demo.earlier_first works reply).
Proof.
  apply topk_sorting_contract; try typeclasses eauto.
  intros [s1 i1] [s2 i2]. unfold Demo.earlier_first. simpl. lia.
Qed.

(** ** The properties on concrete runs *)

Lemma demo_encode_contract R `{!RelDecision R} reply :
  encode_contract (H0 := Demo.models R true reply).
Proof. intros n texts es [= <-]. reflexivity. Qed.



(** C8 on a run: a generator that always answers [Yes]. *)
Lemma demo_persistently_short R `{!RelDecision R} works :
  persistently_short (H := Latin1.ucd)
    (H0 := Demo.models R works Demo.short_reply).
Proof.
  intros n input_text. exists (u "Yes"). split; [reflexivity|].
  exists (u "Yes."). split; [vm_compute; reflexivity|].
  vm_compute. lia.
Qed.

Lemma retry_runs_to_the_recursion_limit_witness :
  generate_fluent_answer (H := Latin1.ucd) (H0 := Demo.terse)
    3 (u "why") [u "because."] initial
  = (Done (PyStr apology_failed),
     after_generations 4
       (input_text_of (u "why") (join (u " ") [u "because."])) initial).
Proof.
  apply (retry_runs_to_the_recursion_limit (H := Latin1.ucd) (H0 := Demo.terse)
           (u "why") [u "because."]).
  - discriminate.
  - apply demo_persistently_short.
Defined.

(** C8, as stated, fails: on a generator whose answers are always too
    short the function does return. With three levels of recursion left it
    answers with the second apology. *)
Lemma retry_returns_on_short_outputs :
  persistently_short (H := Latin1.ucd) (H0 := Demo.terse) /\
  fst (generate_fluent_answer (H := Latin1.ucd) (H0 := Demo.terse)
         3 (u "why") [u "because."] initial)
  = Done (PyStr apology_failed).
Proof.
  split; [apply demo_persistently_short|].
  vm_compute. reflexivity.
Qed.

(** C4 on a run: two questions about document 1, its content replaced in
    between. The entry built by the first question is read by the second. *)
Lemma cache_is_reused_witness :
  (forall document,
     cached_index (H := Latin1.ucd) (H0 := Demo.talkative) 1 document
       (external_write Demo.rewritten
          (snd (ask_question (H := Latin1.ucd) 1
                  (MkRequest 1 (u "What is the capital?")) Demo.one_document)))
     = (Done Demo.capital_entry,
        external_write Demo.rewritten
          (snd (ask_question (H := Latin1.ucd) 1
                  (MkRequest 1 (u "What is the capital?")) Demo.one_document)))) /\
  document_embeddings
    (snd (ask_question (H := Latin1.ucd) (H0 := Demo.talkative) 1
            (MkRequest 1 (u "Is it large?"))
            (external_write Demo.rewritten
               (snd (ask_question (H := Latin1.ucd) 1
                       (MkRequest 1 (u "What is the capital?"))
                       Demo.one_document)))))
  = document_embeddings
      (external_write Demo.rewritten
         (snd (ask_question (H := Latin1.ucd) 1
                 (MkRequest 1 (u "What is the capital?")) Demo.one_document))) /\
  exists evs1 evs2,
    trace (external_write Demo.rewritten
             (snd (ask_question (H := Latin1.ucd) 1
                     (MkRequest 1 (u "What is the capital?"))
                     Demo.one_document)))
    = trace Demo.one_document ++ evs1 /\
    trace (snd (ask_question (H := Latin1.ucd) (H0 := Demo.talkative) 1
                  (MkRequest 1 (u "Is it large?"))
                  (external_write Demo.rewritten
                     (snd (ask_question (H := Latin1.ucd) 1
                             (MkRequest 1 (u "What is the capital?"))
                             Demo.one_document)))))
    = trace (external_write Demo.rewritten
               (snd (ask_question (H := Latin1.ucd) 1
                       (MkRequest 1 (u "What is the capital?"))
                       Demo.one_document))) ++ evs2 /\
    chunk_calls evs2 = 0%nat /\
    embed_calls evs2 = 0%nat /\
    (embed_calls (evs1 ++ evs2) <= 1)%nat.
Proof.
  apply (cache_is_reused (H := Latin1.ucd) (H0 := Demo.talkative) 1 1
           (MkRequest 1 (u "What is the capital?"))
           (MkRequest 1 (u "Is it large?")) Demo.one_document
           Demo.rewritten
           Demo.capital_entry).
  - reflexivity.
  - vm_compute. reflexivity.
Defined.

(** C7 on a run: the entry stored by one upload. *)
Lemma cache_entries_are_parallel_witness :
  length (embeddings Demo.hello_entry) = length (chunks Demo.hello_entry) /\
  forall i c,
    chunks Demo.hello_entry !! i = Some c ->
    embeddings Demo.hello_entry !! i = Some (embed c).
Proof.
  apply (cache_entries_are_parallel (H := Latin1.ucd) (H0 := Demo.talkative)
           (snd (upload_pdf (H := Latin1.ucd) (u "a.pdf") (u "0") (Some tt)
                   (inr [u "Hello world."; u "Bye."]) 1 initial))
           1 Demo.hello_entry).
  - apply demo_encode_contract.
  - apply reach_upload, reach_initial.
  - vm_compute. reflexivity.
Defined.

(** * Further properties of the code *)

(** ** The chunker *)

Section ChunkerFurther.
Context `{UnicodeData}.

(** The groups closed so far, and the open one if it has a sentence. *)
Definition with_open (groups : list (list str)) (current_chunk : list str)
    : list (list str) :=
  match current_chunk with
  | [] => groups
  | _ => groups ++ [current_chunk]
  end.

(** Every group but the last is followed by a group whose first sentence
    did not fit into it. *)
Fixpoint closed_when_full (max_chunk_size : Z) (groups : list (list str))
    : Prop :=
  match groups with
  | g :: (g' :: _) as rest =>
      (exists s, head g' = Some s /\
                 word_count (join (u " ") g) + word_count s > max_chunk_size)
      /\ closed_when_full max_chunk_size rest
  | _ => True
  end.

(** The invariant of the loop that carries this. *)
Definition greedy_inv (max_chunk_size : Z) (seen : list str) (st : chunk_loop)
    : Prop :=
  exists groups,
    lp_chunks st = map (join (u " ")) groups /\
    concat groups ++ lp_current_chunk st = seen /\
    lp_current_length st = word_count (join (u " ") (lp_current_chunk st)) /\
    (lp_current_chunk st = [] -> groups = []) /\
    closed_when_full max_chunk_size (with_open groups (lp_current_chunk st)).

Lemma flush_with_open groups cur :
  flush (map (join (u " ")) groups) cur
  = map (join (u " ")) (with_open groups cur).
Proof.
  destruct cur; [reflexivity|]. unfold flush, with_open.
  rewrite map_app. reflexivity.
Qed.

Lemma concat_with_open groups cur :
  concat (with_open groups cur) = concat groups ++ cur.
Proof.
  destruct cur; simpl; [rewrite app_nil_r; reflexivity|].
  rewrite concat_app. simpl. rewrite app_nil_r. reflexivity.
Qed.

Lemma closed_when_full_snoc m groups s t :
  closed_when_full m groups ->
  (forall g, last groups = Some g ->
             word_count (join (u " ") g) + word_count s > m) ->
  closed_when_full m (groups ++ [s :: t]).
Proof.
  induction groups as [|g groups IH]; intros Hc Hlast; [exact I|].
  destruct groups as [|g' groups].
  - simpl. split; [|exact I]. exists s. split; [reflexivity|].
    apply Hlast. reflexivity.
  - destruct Hc as [Hadj Hc]. split; [exact Hadj|].
    apply IH; [exact Hc|]. intros g0 Hg0. apply Hlast. exact Hg0.
Qed.

Lemma closed_when_full_grow m groups c cur s :
  closed_when_full m (groups ++ [c :: cur]) ->
  closed_when_full m (groups ++ [(c :: cur) ++ [s]]).
Proof.
  induction groups as [|g groups IH]; intros Hc; [exact I|].
  destruct groups as [|g' groups].
  - destruct Hc as [Hadj _]. split; [exact Hadj | exact I].
  - destruct Hc as [Hadj Hc]. split; [exact Hadj | apply IH, Hc].
Qed.

Lemma greedy_step m seen st sentence :
  greedy_inv m seen st ->
  greedy_inv m (seen ++ [sentence]) (chunk_step m st sentence).
Proof.
  intros (groups & Hch & Hseen & Hlen & Hnil & Hc).
  unfold chunk_step. fold (word_count sentence).
  destruct (Z.gtb_spec (lp_current_length st + word_count sentence) m)
    as [Hgt|Hle].
  - exists (with_open groups (lp_current_chunk st)). simpl.
    split; [rewrite Hch; apply flush_with_open|].
    split; [rewrite concat_with_open, Hseen; reflexivity|].
    split; [reflexivity|]. split; [discriminate|].
    apply closed_when_full_snoc; [exact Hc|].
    intros g Hg. destruct (lp_current_chunk st) as [|c cur] eqn:Hcur.
    + rewrite (Hnil eq_refl) in Hg. discriminate Hg.
    + simpl in Hg. rewrite last_snoc in Hg. injection Hg as <-.
      rewrite <- Hlen. lia.
  - exists groups. simpl.
    split; [exact Hch|].
    split; [rewrite app_assoc, Hseen; reflexivity|].
    split; [rewrite word_count_join_snoc, <- Hlen; reflexivity|].
    split.
    + destruct (lp_current_chunk st); discriminate.
    + destruct (lp_current_chunk st) as [|c cur] eqn:Hcur.
      * rewrite (Hnil eq_refl). exact I.
      * simpl in Hc |- *. apply closed_when_full_grow. exact Hc.
Qed.

Lemma greedy_fold m sentences seen st :
  greedy_inv m seen st ->
  greedy_inv m (seen ++ sentences)
             (fold_left (chunk_step m) sentences st).
Proof.
  revert seen st. induction sentences as [|s sentences IH]; intros seen st Hinv.
  - rewrite app_nil_r. exact Hinv.
  - simpl. replace (seen ++ s :: sentences) with ((seen ++ [s]) ++ sentences)
      by (rewrite <- app_assoc; reflexivity).
    apply IH, greedy_step, Hinv.
Qed.

Lemma closed_when_full_at m groups front g s rest back :
  closed_when_full m groups ->
  groups = front ++ g :: (s :: rest) :: back ->
  word_count (join (u " ") g) + word_count s > m.
Proof.
  revert groups. induction front as [|f front IH]; intros groups Hc ->.
  - destruct Hc as [(s' & Hs' & Hgt) _]. injection Hs' as <-. exact Hgt.
  - simpl in Hc. destruct (front ++ g :: (s :: rest) :: back) eqn:Heq.
    + destruct front; discriminate Heq.
    + destruct Hc as [_ Hc]. eapply IH; [exact Hc | reflexivity].
Qed.

(** X1. The chunker is greedy: it closes a chunk only when the next
    sentence does not fit. Of any two consecutive chunks, the words of the
    first together with the words of the first sentence of the second
    exceed the limit. *)
Theorem chunk_context_is_greedy (context : str) (max_chunk_size : Z) :
  exists groups : list (list str),
    concat groups = Re.split false sentence_boundary context /\
    chunk_context context max_chunk_size = map (join (u " ")) groups /\
    forall front g sentence rest back,
      groups = front ++ g :: (sentence :: rest) :: back ->
      word_count (join (u " ") g) + word_count sentence > max_chunk_size.
Proof.
  unfold chunk_context, chunk_sentences.
  set (sentences := Re.split false sentence_boundary context).
  destruct (greedy_fold max_chunk_size sentences [] (ChunkLoop [] [] 0))
    as (groups & Hch & Hseen & _ & _ & Hc).
  { exists []. simpl. repeat split; exact I. }
  set (st := fold_left (chunk_step max_chunk_size) sentences (ChunkLoop [] [] 0))
    in *.
  exists (with_open groups (lp_current_chunk st)).
  split; [rewrite concat_with_open; exact Hseen|].
  split; [rewrite Hch; apply flush_with_open|].
  intros front g sentence rest back Heq.
  eapply closed_when_full_at; [exact Hc | exact Heq].
Qed.

(** With a negative limit nothing fits. *)
Lemma chunk_fold_negative m sentences st :
  m < 0 ->
  0 <= lp_current_length st ->
  flush (lp_chunks (fold_left (chunk_step m) sentences st))
        (lp_current_chunk (fold_left (chunk_step m) sentences st))
  = flush (lp_chunks st) (lp_current_chunk st) ++ sentences.
Proof.
  intros Hm. revert st.
  induction sentences as [|s sentences IH]; intros st Hlen.
  - simpl. rewrite app_nil_r. reflexivity.
  - assert (Hstep : chunk_step m st s
                    = ChunkLoop (flush (lp_chunks st) (lp_current_chunk st))
                                [s] (Z.of_nat (length (split s)))).
    { unfold chunk_step.
      destruct (Z.gtb_spec
                  (lp_current_length st + Z.of_nat (length (split s))) m);
        [reflexivity | lia]. }
    simpl fold_left. rewrite Hstep, IH by (simpl; lia).
    simpl. rewrite <- app_assoc. reflexivity.
Qed.

(** X2. Under a negative limit every sentence is a chunk of its own: the
    chunks are exactly the sentences. *)
Theorem chunk_context_negative_limit (context : str) (max_chunk_size : Z) :
  max_chunk_size < 0 ->
  chunk_context context max_chunk_size
  = Re.split false sentence_boundary context.
Proof.
  intros Hm. unfold chunk_context, chunk_sentences.
  rewrite (chunk_fold_negative max_chunk_size _ (ChunkLoop [] [] 0) Hm);
    simpl; [reflexivity | lia].
Qed.

Lemma join_app sep (a b : list str) :
  a <> [] -> b <> [] -> join sep (a ++ b) = join sep a ++ sep ++ join sep b.
Proof.
  induction a as [|x a IH]; intros Ha Hb; [congruence|].
  destruct a as [|y a].
  - destruct b; [congruence | reflexivity].
  - change (join sep ((x :: y :: a) ++ b))
      with (x ++ sep ++ join sep ((y :: a) ++ b)).
    rewrite IH by (discriminate || assumption).
    change (join sep (x :: y :: a)) with (x ++ sep ++ join sep (y :: a)).
    rewrite <- !app_assoc. reflexivity.
Qed.

Lemma join_concat sep (groups : list (list str)) :
  Forall (fun g => g <> []) groups ->
  join sep (map (join sep) groups) = join sep (concat groups).
Proof.
  induction groups as [|g groups IH]; intros Hne; [reflexivity|].
  inversion Hne as [|? ? Hg Hrest]; subst.
  destruct groups as [|g' groups].
  - simpl. rewrite app_nil_r. reflexivity.
  - change (join sep (map (join sep) (g :: g' :: groups)))
      with (join sep g ++ sep ++ join sep (map (join sep) (g' :: groups))).
    rewrite IH by exact Hrest.
    change (concat (g :: g' :: groups)) with (g ++ concat (g' :: groups)).
    rewrite join_app; [reflexivity | exact Hg |].
    inversion Hrest as [|? ? Hg' _]; subst.
    destruct g'; [congruence | discriminate].
Qed.

Lemma chunk_sentences_join max_chunk_size (sentences : list str) :
  join (u " ") (chunk_sentences max_chunk_size sentences)
  = join (u " ") sentences.
Proof.
  destruct (chunk_sentences_groups max_chunk_size sentences)
    as (groups & Hcat & Hch & Hadm).
  rewrite Hch, <- Hcat. apply join_concat.
  eapply Forall_impl; [exact Hadm|]. intros g [Hg _]. exact Hg.
Qed.

(** X3. Joining the chunks with single spaces gives back, character for
    character, the sentences joined with single spaces: chunking only
    regroups the sentences. *)
Theorem chunk_context_rejoins (context : str) (max_chunk_size : Z) :
  join (u " ") (chunk_context context max_chunk_size)
  = join (u " ") (Re.split false sentence_boundary context).
Proof. unfold chunk_context. apply chunk_sentences_join. Qed.

End ChunkerFurther.

(** ** The matcher on patterns that match runs of whitespace *)

Section WhitespacePatterns.
Context `{UnicodeData}.

(** The loop of [\s+] in [rmatch], by name. *)
Fixpoint white_loop (fuel : nat) (s : Re.mstate) : option Re.mstate :=
  match fuel with
  | O => Some s
  | S fuel' =>
      match Re.one_char (Re.in_set false [Re.CSpace]) s
              (fun s' =>
                 if (length (Re.m_after s') <? length (Re.m_after s))%nat
                 then white_loop fuel' s' else None) with
      | Some m => Some m
      | None => Some s
      end
  end.

(** A pattern that matches only at a whitespace character, and then up to
    the end of the run of whitespace. *)
Definition ws_pattern (pat : Re.regex) : Prop :=
  forall before after,
    Re.rmatch false pat (Re.MState before after []) Some = None \/
    exists m c rest,
      Re.rmatch false pat (Re.MState before after []) Some = Some m /\
      after = c :: rest /\ isspace c = true /\
      Re.m_after m = lstrip rest.

Lemma in_set_space c : Re.in_set false [Re.CSpace] c = isspace c.
Proof. unfold Re.in_set. simpl. rewrite orb_false_r. reflexivity. Qed.

Lemma lstrip_length s : (length (lstrip s) <= length s)%nat.
Proof.
  induction s as [|c s IH]; simpl; [lia|].
  destruct (isspace c); simpl; lia.
Qed.

Lemma lstrip_prefix s :
  exists p, s = p ++ lstrip s /\ Forall (fun c => isspace c = true) p.
Proof.
  induction s as [|c s (p & Hp & Hws)]; [exists []; split; [reflexivity|constructor]|].
  simpl. destruct (isspace c) eqn:Hc.
  - exists (c :: p). split; [simpl; rewrite <- Hp; reflexivity|].
    constructor; assumption.
  - exists []. split; [reflexivity | constructor].
Qed.

Lemma white_loop_spec fuel b a g :
  (length a <= fuel)%nat ->
  exists b', white_loop fuel (Re.MState b a g)
             = Some (Re.MState b' (lstrip a) g).
Proof.
  revert b a. induction fuel as [|fuel IH]; intros b a Hlen.
  - destruct a; [|simpl in Hlen; lia]. exists b. reflexivity.
  - destruct a as [|c rest]; [exists b; reflexivity|].
    simpl in Hlen. cbn [white_loop Re.one_char Re.m_after lstrip].
    rewrite in_set_space. destruct (isspace c); [|exists b; reflexivity].
    cbn [Re.advance Re.m_after Re.m_before Re.m_groups length].
    rewrite (proj2 (Nat.ltb_lt _ _)) by lia.
    destruct (IH (c :: b) rest) as [b' Hb']; [lia|].
    unfold Re.advance. cbn [Re.m_before Re.m_groups].
    rewrite Hb'. exists b'. reflexivity.
Qed.

Lemma plus_white_match b a g :
  match a with
  | c :: rest =>
      if isspace c
      then exists b', Re.rmatch false (Re.Plus white) (Re.MState b a g) Some
                      = Some (Re.MState b' (lstrip rest) g)
      else Re.rmatch false (Re.Plus white) (Re.MState b a g) Some = None
  | [] => Re.rmatch false (Re.Plus white) (Re.MState b a g) Some = None
  end.
Proof.
  destruct a as [|c rest]; [reflexivity|].
  change (Re.rmatch false (Re.Plus white) (Re.MState b (c :: rest) g) Some)
    with (if Re.in_set false [Re.CSpace] c
          then white_loop (length rest) (Re.MState (c :: b) rest g)
          else None).
  rewrite in_set_space. destruct (isspace c); [|reflexivity].
  apply white_loop_spec. lia.
Qed.

Lemma plus_white_ws_pattern : ws_pattern (Re.Plus white).
Proof.
  intros before after. pose proof (plus_white_match before after []) as Hm.
  destruct after as [|c rest]; [left; exact Hm|].
  destruct (isspace c) eqn:Hc; [|left; exact Hm].
  destruct Hm as [b' Hb']. right. eexists _, c, rest.
  split; [exact Hb'|]. auto.
Qed.

Lemma sentence_boundary_ws_pattern : ws_pattern sentence_boundary.
Proof.
  intros before after.
  change (Re.rmatch false sentence_boundary (Re.MState before after []) Some)
    with (match before with
          | c :: _ =>
              if Re.in_set false [Re.CChar (ch "."); Re.CChar (ch "!");
                                  Re.CChar (ch "?")] c
              then Re.rmatch false (Re.Plus white)
                     (Re.MState before after []) Some
              else None
          | [] => None
          end).
  destruct before as [|p before]; [left; reflexivity|].
  destruct (Re.in_set _ _ p); [|left; reflexivity].
  apply plus_white_ws_pattern.
Qed.

(** Passing over the rest of a match. *)
Lemma finditer_go_skip ic pat before p r seg :
  Re.finditer_go ic pat before (p ++ r) (length p) seg
  = Re.finditer_go ic pat (rev p ++ before) r 0 seg.
Proof.
  revert before. induction p as [|c p IH]; intros before; [reflexivity|].
  simpl. rewrite IH, <- app_assoc. reflexivity.
Qed.

Lemma split_lstrip s : split (lstrip s) = split s.
Proof.
  induction s as [|c s IH]; [reflexivity|].
  simpl. destruct (isspace c) eqn:Hc; [|reflexivity].
  rewrite IH. unfold split. simpl. rewrite Hc. reflexivity.
Qed.

Lemma split_app_space a c b :
  isspace c = true -> split (a ++ c :: b) = split a ++ split b.
Proof. intros Hc. apply split_go_app_space. exact Hc. Qed.

Lemma join_cons_nonempty sep (x : str) (l : list str) :
  l <> [] -> join sep (x :: l) = x ++ sep ++ join sep l.
Proof. destruct l; [congruence | reflexivity]. Qed.

(** The pieces between the matches of such a pattern hold the words of the
    subject. *)
Lemma finditer_go_words pat n :
  ws_pattern pat ->
  forall after before seg,
    (length after <= n)%nat ->
    split (join (u " ")
             (map fst (Re.finditer_go false pat before after 0 seg).1
              ++ [(Re.finditer_go false pat before after 0 seg).2]))
    = split (rev seg ++ after).
Proof.
  intros Hpat. induction n as [|n IH]; intros after before seg Hlen.
  - destruct after; [|simpl in Hlen; lia].
    cbn [Re.finditer_go].
    destruct (Hpat before []) as [-> | (m & c & rest & _ & Habs & _)];
      [|discriminate Habs].
    simpl. rewrite app_nil_r. reflexivity.
  - destruct after as [|c rest].
    { cbn [Re.finditer_go].
      destruct (Hpat before []) as [-> | (m & c & rest & _ & Habs & _)];
        [|discriminate Habs].
      simpl. rewrite app_nil_r. reflexivity. }
    simpl in Hlen. cbn [Re.finditer_go].
    destruct (Hpat before (c :: rest))
      as [-> | (m & c' & rest' & -> & Heq & Hc & Hafter)].
    + specialize (IH rest (c :: before) (c :: seg)).
      rewrite IH by lia. simpl. rewrite <- app_assoc. reflexivity.
    + injection Heq as <- <-. rewrite Hafter.
      destruct (lstrip_prefix rest) as (p & Hp & Hws).
      assert (Hw : (length (c :: rest) - length (lstrip rest))%nat
                   = S (length p)).
      { rewrite Hp at 1. simpl. rewrite length_app. lia. }
      rewrite Hw.
      replace (Re.finditer_go false pat (c :: before) rest (length p) [])
        with (Re.finditer_go false pat (rev p ++ c :: before) (lstrip rest) 0 [])
        by (rewrite <- finditer_go_skip, <- Hp; reflexivity).
      specialize (IH (lstrip rest) (rev p ++ c :: before) []).
      pose proof (lstrip_length rest) as Hl.
      destruct (Re.finditer_go false pat (rev p ++ c :: before) (lstrip rest) 0 [])
        as [ms tl].
      cbn [fst snd map app] in IH |- *.
      rewrite join_cons_nonempty by (destruct (map fst ms); discriminate).
      change (u " " ++ ?x) with (ch " " :: x).
      rewrite split_app_space by reflexivity.
      rewrite IH by lia. simpl rev. rewrite app_nil_l.
      rewrite split_app_space by exact Hc.
      rewrite split_lstrip. reflexivity.
Qed.

Lemma re_split_words pat s :
  ws_pattern pat ->
  split (join (u " ") (Re.split false pat s)) = split s.
Proof.
  intros Hpat. unfold Re.split, Re.finditer.
  pose proof (finditer_go_words pat (length s) Hpat s [] [] (Nat.le_refl _))
    as Hw.
  destruct (Re.finditer_go false pat [] s 0 []) as [ms tl]. exact Hw.
Qed.

(** X4. Chunking keeps the words: the words of the chunks, in order, are
    the words of the text, none lost, none added, whatever the limit. *)
Theorem chunk_context_keeps_words (context : str) (max_chunk_size : Z) :
  split (join (u " ") (chunk_context context max_chunk_size)) = split context.
Proof.
  unfold chunk_context. rewrite chunk_sentences_join.
  apply re_split_words, sentence_boundary_ws_pattern.
Qed.

End WhitespacePatterns.

(** ** Retrieval and generation *)

Section StepsFurther.
Context `{UnicodeData} `{Models}.

#[local] Existing Instance M_ret.
#[local] Existing Instance M_bind.
#[local] Existing Instance any_change_preorder.

Ltac step_with tac :=
  eapply holds_bind; [typeclasses eauto | tac | intros ? ?].

Ltac step_plain :=
  step_with ltac:(first
    [ apply holds_get_now with (Q := fun _ => True)
    | apply holds_get_world with (Q := fun _ => True)
    | apply holds_emit with (Q := fun _ => True)
    | apply holds_lift_model with (Q := fun _ => True) ];
    try typeclasses eauto; try (intros; exact I)).

Lemma mapM_lookup_members (cs : list str) (indices : list nat) texts :
  mapM (fun idx => match cs !! idx with
                   | Some c => inr c
                   | None => raise IndexError
                   end) indices = inr texts ->
  forall t, t ∈ texts -> t ∈ cs.
Proof.
  revert texts. induction indices as [|i indices IH]; intros texts Hm t Ht.
  - injection Hm as <-. inversion Ht.
  - rewrite mapM_result_cons in Hm.
    destruct (cs !! i) as [c|] eqn:Hc; [|discriminate Hm].
    cbn [mbind result_bind] in Hm.
    destruct (mapM _ indices) as [e|rest]; [discriminate Hm|].
    cbn [mbind result_bind mret result_ret] in Hm. injection Hm as <-.
    apply elem_of_cons in Ht as [-> | Ht].
    + eapply list_elem_of_lookup_2, Hc.
    + eapply IH; [reflexivity | exact Ht].
Qed.

(** X5. Whatever the models do, every text [retrieve_relevant_chunks]
    returns is one of the chunks it was given. *)
Theorem retrieve_returns_given_chunks (question : str) (cs : list str)
    (es : list embedding) (top_k : Z) (w : world) (texts : list str) :
  fst (retrieve_relevant_chunks question cs es top_k w) = Done texts ->
  forall t, t ∈ texts -> t ∈ cs.
Proof.
  intros Hdone.
  assert (Hh : holds any_change (fun texts : list str => forall t, t ∈ texts -> t ∈ cs)
                 (fun _ => True)
                 (retrieve_relevant_chunks question cs es top_k)).
  { unfold retrieve_relevant_chunks.
    apply holds_reraise; [typeclasses eauto|].
    do 4 step_plain.
    destruct (_ =? 0).
    - apply holds_ret; [typeclasses eauto|]. intros t Ht. inversion Ht.
    - step_plain. apply holds_lift; [typeclasses eauto | | auto].
      intros texts' Hm. eapply mapM_lookup_members, Hm. }
  destruct (Hh w) as [_ Hq]. rewrite Hdone in Hq. exact Hq.
Qed.

(** What [generate_fluent_answer] may return for a non-empty chunk list:
    the apology of its handler, or a post-processed output of the
    generator with five words or more. *)
Definition acceptable_answer (v : pyval) : Prop :=
  v = PyStr apology_failed \/
  exists raw a,
    post_process_answer (PyStr raw) = inr (PyStr a) /\
    v = PyStr a /\ (5 <= length (split a))%nat.

Lemma count_words_inr answer n :
  count_words answer = inr n ->
  exists a, answer = PyStr a /\ n = length (split a).
Proof.
  destruct answer; try discriminate. intros [= <-]. eauto.
Qed.

Lemma generate_fluent_answer_acceptable fuel question (cs : list str) :
  cs <> [] ->
  holds any_change acceptable_answer (fun _ => False)
        (generate_fluent_answer fuel question cs).
Proof.
  intros Hne.
  induction fuel as [|fuel IH]; simpl;
    (eapply holds_try_except with (E1 := fun _ => True);
     [typeclasses eauto | |
      intros e _; apply holds_ret; [typeclasses eauto | left; reflexivity]]);
    (destruct cs as [|c cs]; [congruence|]);
    do 2 step_plain;
    (eapply holds_bind with (Q1 := fun _ => True);
     [typeclasses eauto
     | apply holds_lift_model; [typeclasses eauto | auto | exact I]
     | intros raw _]);
    (eapply holds_bind
       with (Q1 := fun v => post_process_answer (PyStr raw) = inr v);
     [typeclasses eauto
     | apply holds_lift; [typeclasses eauto | auto | auto]
     | intros answer Hanswer]);
    (eapply holds_bind with (Q1 := fun n => count_words answer = inr n);
     [typeclasses eauto
     | apply holds_lift; [typeclasses eauto | auto | auto]
     | intros words Hwords]);
    (destruct (Nat.ltb_spec words 5) as [Hshort|Hlong];
     [| apply holds_ret; [typeclasses eauto|];
        destruct (count_words_inr _ _ Hwords) as (txt & -> & ->);
        right; exists raw, txt; auto ]).
  - apply holds_throw; [typeclasses eauto | exact I].
  - eapply holds_weaken; [exact IH | auto | auto].
Qed.


End StepsFurther.

Section RetriesFurther.
Context `{UnicodeData} `{Models}.

#[local] Existing Instance M_ret.
#[local] Existing Instance M_bind.





End RetriesFurther.

(** ** The endpoint [ask_question] *)

Section AskFurther.
Context `{UnicodeData} `{Models}.

#[local] Existing Instance M_ret.
#[local] Existing Instance M_bind.
#[local] Existing Instance any_change_preorder.

Ltac then_with tac := eapply holds_bind; [typeclasses eauto | tac | ].

(** The two rejections of [ask_question]. *)
Definition not_found : exn := HTTPException 404 (u "Document not found").

Definition processing_error : exn :=
  HTTPException 500 (u "Error processing question").

(** An exception that is not an [HTTPException]. *)
Definition internal_error (e : exn) : Prop :=
  forall status detail, e <> HTTPException status detail.

(** The response dictionaries of lines 216-223 and 229-242. *)
Definition well_formed_response (request : QuestionRequest)
    (r : QuestionResponse) : Prop :=
  r_document_id r = document_id request /\
  r_question r = question request /\
  ((r_answer r = PyStr apology_no_chunks /\ r_confidence r = 0 /\
    r_model_answers r = []) \/
   (acceptable_answer (r_answer r) /\ r_confidence r = 1 /\
    r_model_answers r = [(u "t5_qa_model", r_answer r, 1)])).

Lemma ask_question_missing fuel request w :
  db w !! document_id request = None ->
  ask_question fuel request w = (Raised not_found, w).
Proof.
  intros Hdb. unfold ask_question, http_guard, try_except.
  unfold mbind, M_bind, get_world. cbv beta iota. rewrite Hdb. reflexivity.
Qed.

Lemma ask_question_found fuel request w document :
  db w !! document_id request = Some document ->
  ask_question fuel request w
  = http_guard (u "Error processing question")
      (e ← cached_index (document_id request) document;
       answer_from_index fuel request e) w.
Proof.
  intros Hdb. unfold ask_question, http_guard, try_except.
  unfold mbind at 1, M_bind at 1, get_world. cbv beta iota.
  rewrite Hdb. reflexivity.
Qed.

Lemma chunk_content_internal content :
  holds any_change (fun cs : list str => cs <> []) internal_error
        (chunk_content content).
Proof.
  unfold chunk_content. destruct content as [text|].
  - then_with ltac:(apply holds_emit with (Q := fun _ => True);
                    try typeclasses eauto; try (intros; exact I)).
    intros _ _. apply holds_ret; [typeclasses eauto|].
    apply chunk_context_nonempty.
  - apply holds_throw; [typeclasses eauto|]. intros status detail. discriminate.
Qed.

Lemma cached_index_internal id document :
  holds any_change (fun _ => True) internal_error (cached_index id document).
Proof.
  unfold cached_index.
  then_with ltac:(apply holds_get_world with (Q := fun _ => True);
                  try typeclasses eauto; try (intros; exact I)).
  intros w0 _.
  then_with idtac.
  - instantiate (1 := fun _ => True).
    destruct (document_embeddings w0 !! id).
    + apply holds_ret; [typeclasses eauto | exact I].
    + then_with ltac:(apply chunk_content_internal).
      intros cs Hcs. destruct cs as [|c cs]; [congruence|].
      then_with ltac:(eapply holds_weaken with (Q' := fun _ => True);
                      [apply (generate_embeddings_effect any_change);
                       intros; exact I
                      | auto | intros e -> status detail; discriminate]).
      intros es _.
      apply holds_modify; try typeclasses eauto; try (intros; exact I).
  - intros _ _.
    then_with ltac:(apply holds_get_world with (Q := fun _ => True);
                    try typeclasses eauto; try (intros; exact I)).
    intros w1 _.
    destruct (document_embeddings w1 !! id).
    + apply holds_ret; [typeclasses eauto | exact I].
    + apply holds_throw; [typeclasses eauto|]. intros status detail. discriminate.
Qed.

Lemma answer_from_index_shape fuel request e :
  holds any_change (well_formed_response request) internal_error
        (answer_from_index fuel request e).
Proof.
  unfold answer_from_index.
  then_with ltac:(eapply holds_weaken with (Q' := fun _ => True);
                  [apply (retrieve_relevant_chunks_holds any_change);
                   intros; exact I
                  | auto
                  | intros x [-> | ->] status detail; discriminate]).
  intros rel _. destruct rel as [|c rel].
  - apply holds_ret; [typeclasses eauto|].
    split; [reflexivity|]. split; [reflexivity|]. left. auto.
  - then_with ltac:(eapply holds_weaken;
                    [apply (generate_fluent_answer_acceptable fuel
                              (question request) (c :: rel));
                     discriminate
                    | intros a Ha; exact Ha | contradiction]).
    intros answer Hanswer. apply holds_ret; [typeclasses eauto|].
    split; [reflexivity|]. split; [reflexivity|]. right. auto.
Qed.

Lemma ask_question_body fuel request document :
  holds any_change (well_formed_response request) (fun e => e = processing_error)
    (http_guard (u "Error processing question")
       (e ← cached_index (document_id request) document;
        answer_from_index fuel request e)).
Proof.
  apply holds_http_guard with (E1 := internal_error);
    [typeclasses eauto | | | reflexivity].
  - then_with ltac:(apply cached_index_internal).
    intros e _. apply answer_from_index_shape.
  - intros status detail Hint. exfalso. eapply Hint. reflexivity.
Qed.

(** X8. [ask_question] answers with the 404 rejection exactly when the
    table has no row for the requested id: without a row it raises it and
    leaves the state as it was; and the only other exception it ever raises
    is the 500 rejection with the detail [Error processing question], which
    it raises only for a document that has a row. *)
Theorem ask_question_errors (fuel : nat) (request : QuestionRequest)
    (w : world) :
  (db w !! document_id request = None ->
   ask_question fuel request w = (Raised not_found, w)) /\
  (forall e,
     fst (ask_question fuel request w) = Raised e ->
     (db w !! document_id request = None /\ e = not_found /\
      snd (ask_question fuel request w) = w) \/
     (is_Some (db w !! document_id request) /\ e = processing_error)).
Proof.
  split; [apply ask_question_missing|].
  intros e Hraised.
  destruct (db w !! document_id request) as [document|] eqn:Hdb.
  - right. split; [eauto|].
    rewrite (ask_question_found _ _ _ _ Hdb) in Hraised.
    destruct (ask_question_body fuel request document w) as [_ He].
    rewrite Hraised in He. exact He.
  - left. rewrite (ask_question_missing _ _ _ Hdb) in Hraised |- *.
    injection Hraised as <-. auto.
Qed.

(** X9. A response of [ask_question] repeats the id and the question of
    the request and has one of two shapes: the first apology with
    confidence 0 and no model answers; or confidence 1 and one model answer,
    named [t5_qa_model], that repeats the answer, which is the second
    apology or a post-processed output of the generator of at least five
    words. *)
Theorem ask_question_response (fuel : nat) (request : QuestionRequest)
    (w : world) (r : QuestionResponse) :
  fst (ask_question fuel request w) = Done r ->
  well_formed_response request r.
Proof.
  intros Hdone.
  destruct (db w !! document_id request) as [document|] eqn:Hdb.
  - rewrite (ask_question_found _ _ _ _ Hdb) in Hdone.
    destruct (ask_question_body fuel request document w) as [_ Hq].
    rewrite Hdone in Hq. exact Hq.
  - rewrite (ask_question_missing _ _ _ Hdb) in Hdone. discriminate Hdone.
Qed.

Lemma cached_index_frame id document w :
  db (snd (cached_index id document w)) = db w /\
  (forall id' e, document_embeddings w !! id' = Some e ->
     document_embeddings (snd (cached_index id document w)) !! id' = Some e) /\
  (forall id', id' <> id ->
     document_embeddings (snd (cached_index id document w)) !! id'
     = document_embeddings w !! id') /\
  (forall e, fst (cached_index id document w) = Done e ->
     document_embeddings (snd (cached_index id document w)) !! id = Some e).
Proof.
  unfold cached_index, mbind, M_bind, get_world. cbv beta iota.
  destruct (document_embeddings w !! id) as [e0|] eqn:Hhit.
  - cbn [mret M_ret]. rewrite Hhit. cbn [fst snd].
    repeat split; auto. intros e [= <-]. exact Hhit.
  - unfold chunk_content. destruct (content document) as [text|].
    + unfold mbind, M_bind, emit. cbv beta iota. cbn [mret M_ret].
      destruct (chunk_context_default text) as [|c cs].
      * cbn [throw fst snd log db document_embeddings].
        repeat split; auto. discriminate.
      * unfold generate_embeddings, store, modify, try_except, mbind, M_bind,
          get_now, emit. cbv beta iota.
        destruct (encode _ (c :: cs)) as [es|]; cbn [lift_model mret M_ret throw];
          cbv beta iota; cbn [document_embeddings trace log db].
        -- rewrite lookup_insert_eq.
           cbn [mret M_ret fst snd db document_embeddings].
           split; [reflexivity|]. split; [|split].
           ++ intros id' e Hid'. rewrite lookup_insert_ne; [exact Hid'|].
              intros <-. congruence.
           ++ intros id' Hne. rewrite lookup_insert_ne; [reflexivity|].
              congruence.
           ++ intros e [= <-]. apply lookup_insert_eq.
        -- cbn [fst snd db document_embeddings log].
           repeat split; auto. discriminate.
    + cbn [throw fst snd]. repeat split; auto. discriminate.
Qed.

(** X10. [ask_question] never changes the table of documents, keeps every
    entry the dictionary had, and touches no entry of another document;
    when it returns a response, the requested document has a row and,
    from then on, an entry. *)
Theorem ask_question_frame (fuel : nat) (request : QuestionRequest)
    (w : world) :
  db (snd (ask_question fuel request w)) = db w /\
  (forall id e, document_embeddings w !! id = Some e ->
     document_embeddings (snd (ask_question fuel request w)) !! id = Some e) /\
  (forall id, id <> document_id request ->
     document_embeddings (snd (ask_question fuel request w)) !! id
     = document_embeddings w !! id) /\
  (forall r, fst (ask_question fuel request w) = Done r ->
     is_Some (db w !! document_id request) /\
     is_Some (document_embeddings (snd (ask_question fuel request w))
              !! document_id request)).
Proof.
  destruct (db w !! document_id request) as [document|] eqn:Hdb.
  - rewrite (ask_question_found _ _ _ _ Hdb).
    rewrite http_guard_world.
    assert (Hd : forall r,
              fst (http_guard (u "Error processing question")
                     (e ← cached_index (document_id request) document;
                      answer_from_index fuel request e) w) = Done r ->
              fst ((e ← cached_index (document_id request) document;
                    answer_from_index fuel request e) w) = Done r).
    { intros r. apply http_guard_done. }
    destruct (cached_index_frame (document_id request) document w)
      as (Hdbc & Hkeep & Hother & Hentry).
    unfold mbind, M_bind in Hd |- *.
    destruct (cached_index (document_id request) document w)
      as [[e|x] wc]; cbn [fst snd] in *.
    + destruct (answer_from_index_quiet fuel request e wc) as (Hdb' & Hde' & _).
      rewrite Hdb', Hde'.
      split; [exact Hdbc|]. split; [exact Hkeep|]. split; [exact Hother|].
      intros r _. split; [eauto|]. rewrite (Hentry e eq_refl). eauto.
    + split; [exact Hdbc|]. split; [exact Hkeep|]. split; [exact Hother|].
      intros r Hr. apply Hd in Hr. discriminate Hr.
  - rewrite (ask_question_missing _ _ _ Hdb). cbn [fst snd].
    repeat split; auto; discriminate.
Qed.

End AskFurther.

(** ** The endpoints [upload_pdf] and [delete_document] *)

Section UploadFurther.
Context `{UnicodeData} `{Models}.

#[local] Existing Instance M_ret.
#[local] Existing Instance M_bind.

(** The row [upload_pdf] adds for a file whose text is [text]. *)
Definition uploaded_document (file_name timestamp text : str) : Document :=
  MkDocument (Some (timestamp ++ u "_" ++ file_name)) (Some file_name)
             (Some text).

(** The table refuses the row: the key or the stored name is taken. *)
Definition refused_by_table (id : Z) (d : Document) (w : world) : bool :=
  bool_decide (is_Some (db w !! id))
  || bool_decide (map_Exists
                    (fun _ d' => is_Some (filename d)
                                 /\ filename d' = filename d) (db w)).

(** The state after the row was added and the chunks were sent to the
    embedder, with or without an entry. *)
Definition after_upload (id : Z) (d : Document) (text : str)
    (entry : option index_entry) (w : world) : world :=
  MkWorld (<[id := d]> (db w))
          (match entry with
           | Some e => <[id := e]> (document_embeddings w)
           | None => document_embeddings w
           end)
          (trace w ++ [EvChunkContext text;
                       EvGenerateEmbeddings (chunk_context_default text)]).

Definition not_a_pdf : exn :=
  HTTPException 400 (u "Only PDF files are allowed").

Definition extraction_failed : exn :=
  HTTPException 500 (u "Error extracting text from PDF").

Definition upload_failed : exn :=
  HTTPException 500 (u "Unexpected error during file upload").

Lemma upload_pdf_not_pdf file_name timestamp save pdf id w :
  is_pdf_name file_name = false ->
  upload_pdf file_name timestamp save pdf id w = (Raised not_a_pdf, w).
Proof.
  intros Hname. unfold upload_pdf, http_guard, try_except.
  rewrite Hname. reflexivity.
Qed.

Lemma upload_pdf_unsaved file_name timestamp pdf id w :
  is_pdf_name file_name = true ->
  upload_pdf file_name timestamp None pdf id w = (Raised upload_failed, w).
Proof.
  intros Hname. unfold upload_pdf, http_guard, try_except.
  rewrite Hname. reflexivity.
Qed.

Lemma upload_pdf_unread file_name timestamp saved pdf id w x :
  is_pdf_name file_name = true ->
  extract_text_from_pdf pdf = inl x ->
  upload_pdf file_name timestamp (Some saved) pdf id w
  = (Raised match x with
            | ValueError message => HTTPException 400 message
            | _ => extraction_failed
            end, w).
Proof.
  intros Hname Hex. unfold upload_pdf, http_guard, try_except.
  rewrite Hname, Hex. cbn [negb]. unfold mbind, M_bind.
  destruct x; reflexivity.
Qed.

Lemma upload_pdf_refused file_name timestamp saved pdf id w text :
  is_pdf_name file_name = true ->
  extract_text_from_pdf pdf = inr text ->
  refused_by_table id (uploaded_document file_name timestamp text) w = true ->
  upload_pdf file_name timestamp (Some saved) pdf id w
  = (Raised upload_failed, w).
Proof.
  intros Hname Hex Href. unfold refused_by_table, uploaded_document in Href.
  unfold upload_pdf, http_guard, try_except. rewrite Hname, Hex.
  cbn [negb]. unfold db_add, mbind, M_bind, get_world. cbv beta iota zeta.
  cbn [lift_os mret M_ret]. cbv beta iota. rewrite Href. reflexivity.
Qed.

Lemma upload_pdf_run file_name timestamp saved pdf id w text :
  is_pdf_name file_name = true ->
  extract_text_from_pdf pdf = inr text ->
  refused_by_table id (uploaded_document file_name timestamp text) w = false ->
  upload_pdf file_name timestamp (Some saved) pdf id w
  = match encode (S (now w)) (chunk_context_default text) with
    | Some es =>
        (Done (id, file_name),
         after_upload id (uploaded_document file_name timestamp text) text
           (Some (MkEntry (chunk_context_default text) es)) w)
    | None =>
        (Raised upload_failed,
         after_upload id (uploaded_document file_name timestamp text) text
           None w)
    end.
Proof.
  intros Hname Hex Href. unfold refused_by_table, uploaded_document in Href.
  unfold upload_pdf, http_guard, try_except. rewrite Hname, Hex.
  cbn [negb]. unfold db_add, mbind, M_bind, get_world, modify, emit.
  cbv beta iota zeta. cbn [lift_os mret M_ret]. cbv beta iota.
  rewrite Href. cbv beta iota.
  pose proof (chunk_context_nonempty text 512) as Hne.
  change (chunk_context text 512) with (chunk_context_default text) in Hne.
  unfold after_upload, uploaded_document.
  destruct (chunk_context_default text) as [|c cs]; [congruence|].
  unfold generate_embeddings, store, modify, try_except, mbind, M_bind,
    get_now, emit. cbv beta iota. cbn [mret M_ret]. cbv beta iota.
  assert (Hnow : forall ev d,
            now (log ev (MkWorld d (document_embeddings w) (trace w)))
            = S (now w)).
  { intros ev d. unfold now, log. cbn [trace]. rewrite length_app. simpl. lia. }
  rewrite Hnow.
  destruct (encode (S (now w)) (c :: cs)) as [es|];
    cbn [lift_model mret M_ret throw]; cbv beta iota;
    unfold log; cbn [db document_embeddings trace];
    rewrite <- app_assoc; reflexivity.
Qed.

(** X11. [upload_pdf] returns exactly when the name ends in [.pdf]
    (in any case of the letters), the file could be saved, it has text, the
    table accepts the row, and the embedder returns; it then returns the
    new id with the name as sent, the table has the row with the cleaned
    text, and the dictionary has the chunks of that text with their
    embeddings. *)
Theorem upload_pdf_succeeds_iff (file_name timestamp : str)
    (save : option unit) (pdf : result (list str)) (id : Z) (w : world) :
  ((exists r, fst (upload_pdf file_name timestamp save pdf id w) = Done r) <->
   (is_pdf_name file_name = true /\
    is_Some save /\
    exists text es,
      extract_text_from_pdf pdf = inr text /\
      refused_by_table id (uploaded_document file_name timestamp text) w
      = false /\
      encode (S (now w)) (chunk_context_default text) = Some es)) /\
  (forall text es,
     is_pdf_name file_name = true ->
     is_Some save ->
     extract_text_from_pdf pdf = inr text ->
     refused_by_table id (uploaded_document file_name timestamp text) w
     = false ->
     encode (S (now w)) (chunk_context_default text) = Some es ->
     upload_pdf file_name timestamp save pdf id w
     = (Done (id, file_name),
        after_upload id (uploaded_document file_name timestamp text) text
          (Some (MkEntry (chunk_context_default text) es)) w)).
Proof.
  split; [split|].
  - intros [r Hr].
    destruct (is_pdf_name file_name) eqn:Hname.
    2:{ rewrite (upload_pdf_not_pdf _ _ _ _ _ _ Hname) in Hr.
        discriminate Hr. }
    split; [reflexivity|].
    destruct save as [saved|].
    2:{ rewrite (upload_pdf_unsaved _ _ _ _ _ Hname) in Hr.
        discriminate Hr. }
    split; [eauto|].
    destruct (extract_text_from_pdf pdf) as [x|text] eqn:Hex.
    { rewrite (upload_pdf_unread _ _ _ _ _ _ _ Hname Hex) in Hr.
      discriminate Hr. }
    destruct (refused_by_table id (uploaded_document file_name timestamp text) w)
      eqn:Href.
    { rewrite (upload_pdf_refused _ _ _ _ _ _ _ Hname Hex Href) in Hr.
      discriminate Hr. }
    rewrite (upload_pdf_run _ _ _ _ _ _ _ Hname Hex Href) in Hr.
    destruct (encode (S (now w)) (chunk_context_default text)) as [es|] eqn:Henc;
      [|discriminate Hr].
    exists text, es. auto.
  - intros (Hname & [saved ->] & text & es & Hex & Href & Henc).
    rewrite (upload_pdf_run _ _ _ _ _ _ _ Hname Hex Href), Henc. eauto.
  - intros text es Hname [saved ->] Hex Href Henc.
    rewrite (upload_pdf_run _ _ _ _ _ _ _ Hname Hex Href), Henc. reflexivity.
Qed.

(** X12. The rejections of [upload_pdf], in the order in which they are
    decided, each leaving the state as it was: 400 for a name that does not
    end in [.pdf]; 500 [Unexpected error during file upload] when the file
    cannot be saved; 400 with the message of the [ValueError] when the
    extraction raises one; 500 [Error extracting text from PDF] for any
    other failure of the extraction; 500 [Unexpected error during file
    upload] when the table refuses the row. And [upload_pdf] raises nothing
    but these HTTP errors. *)
Theorem upload_pdf_errors (file_name timestamp : str)
    (save : option unit) (pdf : result (list str)) (id : Z) (w : world) :
  (is_pdf_name file_name = false ->
   upload_pdf file_name timestamp save pdf id w = (Raised not_a_pdf, w)) /\
  (is_pdf_name file_name = true -> save = None ->
   upload_pdf file_name timestamp save pdf id w = (Raised upload_failed, w)) /\
  (forall message,
     is_pdf_name file_name = true -> is_Some save ->
     extract_text_from_pdf pdf = inl (ValueError message) ->
     upload_pdf file_name timestamp save pdf id w
     = (Raised (HTTPException 400 message), w)) /\
  (forall x,
     is_pdf_name file_name = true -> is_Some save ->
     extract_text_from_pdf pdf = inl x ->
     (forall message, x <> ValueError message) ->
     upload_pdf file_name timestamp save pdf id w
     = (Raised extraction_failed, w)) /\
  (forall text,
     is_pdf_name file_name = true -> is_Some save ->
     extract_text_from_pdf pdf = inr text ->
     refused_by_table id (uploaded_document file_name timestamp text) w
     = true ->
     upload_pdf file_name timestamp save pdf id w
     = (Raised upload_failed, w)) /\
  (forall e,
     fst (upload_pdf file_name timestamp save pdf id w) = Raised e ->
     e = not_a_pdf \/
     (exists message,
        extract_text_from_pdf pdf = inl (ValueError message) /\
        e = HTTPException 400 message) \/
     e = extraction_failed \/
     e = upload_failed).
Proof.
  split; [apply upload_pdf_not_pdf|].
  split; [intros Hname ->; apply upload_pdf_unsaved, Hname|].
  split.
  { intros message Hname [saved ->] Hex.
    rewrite (upload_pdf_unread _ _ _ _ _ _ _ Hname Hex). reflexivity. }
  split.
  { intros x Hname [saved ->] Hex Hother.
    rewrite (upload_pdf_unread _ _ _ _ _ _ _ Hname Hex).
    destruct x; try reflexivity. exfalso. eapply Hother. reflexivity. }
  split.
  { intros text Hname [saved ->] Hex Href.
    eapply upload_pdf_refused; eassumption. }
  intros e Hr.
  destruct (is_pdf_name file_name) eqn:Hname.
  2:{ rewrite (upload_pdf_not_pdf _ _ _ _ _ _ Hname) in Hr.
      injection Hr as <-. auto. }
  destruct save as [saved|].
  2:{ rewrite (upload_pdf_unsaved _ _ _ _ _ Hname) in Hr.
      injection Hr as <-. auto. }
  destruct (extract_text_from_pdf pdf) as [x|text] eqn:Hex.
  - rewrite (upload_pdf_unread _ _ _ _ _ _ _ Hname Hex) in Hr.
    injection Hr as <-. destruct x; eauto.
  - destruct (refused_by_table id (uploaded_document file_name timestamp text) w)
      eqn:Href.
    + rewrite (upload_pdf_refused _ _ _ _ _ _ _ Hname Hex Href) in Hr.
      injection Hr as <-. auto.
    + rewrite (upload_pdf_run _ _ _ _ _ _ _ Hname Hex Href) in Hr.
      destruct (encode (S (now w)) (chunk_context_default text));
        [discriminate Hr|]. injection Hr as <-. auto.
Qed.

(** X13. When the file was saved and read and the row was accepted, but
    the embedder fails, the client gets the 500 rejection although the row
    was committed: the document is in the table, the chunking and the
    embedding call are logged, and the dictionary is as before, without an
    entry made by this upload. *)
Theorem upload_pdf_keeps_row_on_failure (file_name timestamp : str)
    (save : option unit) (pdf : result (list str)) (id : Z) (w : world)
    (text : str) :
  is_pdf_name file_name = true ->
  is_Some save ->
  extract_text_from_pdf pdf = inr text ->
  refused_by_table id (uploaded_document file_name timestamp text) w = false ->
  encode (S (now w)) (chunk_context_default text) = None ->
  upload_pdf file_name timestamp save pdf id w
  = (Raised upload_failed,
     after_upload id (uploaded_document file_name timestamp text) text None w)
  /\ db (snd (upload_pdf file_name timestamp save pdf id w)) !! id
     = Some (uploaded_document file_name timestamp text)
  /\ document_embeddings (snd (upload_pdf file_name timestamp save pdf id w))
     = document_embeddings w.
Proof.
  intros Hname [saved ->] Hex Href Henc.
  rewrite (upload_pdf_run _ _ _ _ _ _ _ Hname Hex Href), Henc.
  cbn [fst snd after_upload db document_embeddings].
  split; [reflexivity|]. split; [apply lookup_insert_eq | reflexivity].
Qed.

End UploadFurther.

(** ** The endpoints one after another *)

Section LifecycleFurther.
Context `{UnicodeData} `{Models}.

#[local] Existing Instance M_ret.
#[local] Existing Instance M_bind.

Lemma upload_pdf_done_inv file_name timestamp save pdf id w r :
  fst (upload_pdf file_name timestamp save pdf id w) = Done r ->
  exists text es,
    db w !! id = None /\
    upload_pdf file_name timestamp save pdf id w
    = (Done (id, file_name),
       after_upload id (uploaded_document file_name timestamp text) text
         (Some (MkEntry (chunk_context_default text) es)) w).
Proof.
  intros Hr.
  destruct (is_pdf_name file_name) eqn:Hname.
  2:{ rewrite (upload_pdf_not_pdf _ _ _ _ _ _ Hname) in Hr. discriminate Hr. }
  destruct save as [saved|].
  2:{ rewrite (upload_pdf_unsaved _ _ _ _ _ Hname) in Hr. discriminate Hr. }
  destruct (extract_text_from_pdf pdf) as [x|text] eqn:Hex.
  { rewrite (upload_pdf_unread _ _ _ _ _ _ _ Hname Hex) in Hr.
    discriminate Hr. }
  destruct (refused_by_table id (uploaded_document file_name timestamp text) w)
    eqn:Href.
  { rewrite (upload_pdf_refused _ _ _ _ _ _ _ Hname Hex Href) in Hr.
    discriminate Hr. }
  rewrite (upload_pdf_run _ _ _ _ _ _ _ Hname Hex Href) in Hr |- *.
  destruct (encode (S (now w)) (chunk_context_default text)) as [es|];
    [|discriminate Hr].
  exists text, es. split; [|reflexivity].
  unfold refused_by_table in Href. apply orb_false_elim in Href as [Hkey _].
  apply bool_decide_eq_false in Hkey.
  destruct (db w !! id); [exfalso; apply Hkey; eauto | reflexivity].
Qed.

(** X14. A question about a document that was just uploaded reads the
    entry the upload stored: it logs no chunking and no embedding of
    chunks, and leaves the table and the dictionary as the upload left
    them. *)
Theorem upload_then_ask_builds_nothing (file_name timestamp : str)
    (save : option unit) (pdf : result (list str)) (id : Z) (w : world)
    (r : Z * str) (fuel : nat) (question : str) :
  fst (upload_pdf file_name timestamp save pdf id w) = Done r ->
  quiet (snd (upload_pdf file_name timestamp save pdf id w))
        (snd (ask_question fuel (MkRequest id question)
                (snd (upload_pdf file_name timestamp save pdf id w)))).
Proof.
  intros Hr.
  destruct (upload_pdf_done_inv _ _ _ _ _ _ _ Hr) as (text & es & _ & Hrun).
  rewrite Hrun. cbn [snd].
  eapply ask_question_hit. cbn [document_id after_upload document_embeddings].
  apply lookup_insert_eq.
Qed.

Definition deletion_failed : exn :=
  HTTPException 500 (u "Error deleting document").

Lemma delete_document_found removal id w d name :
  db w !! id = Some d ->
  filename d = Some name ->
  delete_document removal id w
  = match removal with
    | Some _ =>
        (Done (u "Document deleted successfully"),
         MkWorld (delete id (db w)) (delete id (document_embeddings w))
                 (trace w))
    | None => (Raised deletion_failed, w)
    end.
Proof.
  intros Hd Hname. unfold delete_document, http_guard, try_except.
  unfold mbind, M_bind, get_world, modify. cbv beta iota. rewrite Hd.
  cbv beta iota. rewrite Hname. destruct removal; reflexivity.
Qed.

Lemma delete_document_nameless removal id w d :
  db w !! id = Some d ->
  filename d = None ->
  delete_document removal id w = (Raised deletion_failed, w).
Proof.
  intros Hd Hname. unfold delete_document, http_guard, try_except.
  unfold mbind, M_bind, get_world, modify. cbv beta iota. rewrite Hd.
  cbv beta iota. rewrite Hname. reflexivity.
Qed.

(** X15. [delete_document] on a document that has a row. When the stored
    name is NULL, or the removal of the stored file raises, the answer is
    the 500 rejection and the state is as before: the row and the entry
    are kept. When the row has a name and the removal succeeds, the row and
    the entry of that id are gone, those of every other id are as before,
    and a question about the deleted id is rejected with 404 without any
    change of state. *)
Theorem delete_then_ask (removal : option unit) (id : Z) (w : world)
    (d : Document) (fuel : nat) (question : str) :
  db w !! id = Some d ->
  (filename d = None \/ removal = None ->
   delete_document removal id w = (Raised deletion_failed, w)) /\
  (is_Some (filename d) -> is_Some removal ->
   fst (delete_document removal id w)
   = Done (u "Document deleted successfully") /\
   db (snd (delete_document removal id w)) !! id = None /\
   document_embeddings (snd (delete_document removal id w)) !! id = None /\
   (forall id', id' <> id ->
      db (snd (delete_document removal id w)) !! id' = db w !! id' /\
      document_embeddings (snd (delete_document removal id w)) !! id'
      = document_embeddings w !! id') /\
   ask_question fuel (MkRequest id question)
     (snd (delete_document removal id w))
   = (Raised not_found, snd (delete_document removal id w))).
Proof.
  intros Hrow. split.
  - intros Hfail. destruct (filename d) as [name|] eqn:Hname.
    + destruct Hfail as [Habs | ->]; [discriminate Habs|].
      rewrite (delete_document_found _ _ _ _ _ Hrow Hname). reflexivity.
    + apply (delete_document_nameless _ _ _ _ Hrow Hname).
  - intros [name Hname] [removed ->].
    rewrite (delete_document_found _ _ _ _ _ Hrow Hname).
    cbn [fst snd db document_embeddings].
    split; [reflexivity|].
    split; [apply lookup_delete_eq|].
    split; [apply lookup_delete_eq|].
    split.
    + intros id' Hne. split; apply lookup_delete_ne; congruence.
    + apply ask_question_missing. cbn [document_id db].
      apply lookup_delete_eq.
Qed.

(** X16. Deleting a document right after its upload undoes the upload,
    the removal of the file the upload has just written succeeding: the
    table is as before the upload, and so is the dictionary, but for an
    entry it may have had under the same id, which is gone. *)
Theorem upload_then_delete (file_name timestamp : str)
    (save : option unit) (pdf : result (list str)) (id : Z) (w : world)
    (r : Z * str) :
  fst (upload_pdf file_name timestamp save pdf id w) = Done r ->
  fst (delete_document (Some tt) id
         (snd (upload_pdf file_name timestamp save pdf id w)))
  = Done (u "Document deleted successfully") /\
  db (snd (delete_document (Some tt) id
             (snd (upload_pdf file_name timestamp save pdf id w)))) = db w /\
  document_embeddings
    (snd (delete_document (Some tt) id
            (snd (upload_pdf file_name timestamp save pdf id w))))
  = delete id (document_embeddings w).
Proof.
  intros Hr.
  destruct (upload_pdf_done_inv _ _ _ _ _ _ _ Hr) as (text & es & Hfresh & Hrun).
  rewrite Hrun. cbn [snd].
  rewrite (delete_document_found (Some tt) id _
             (uploaded_document file_name timestamp text)
             (timestamp ++ u "_" ++ file_name)).
  2:{ cbn [after_upload db]. apply lookup_insert_eq. }
  2:{ reflexivity. }
  cbn [fst snd after_upload db document_embeddings].
  split; [reflexivity|].
  split; [apply delete_insert_id, Hfresh | apply delete_insert_eq].
Qed.

End LifecycleFurther.

(** ** What the dictionary holds in every reachable state *)

Section InvariantsFurther.
Context `{UnicodeData} `{Models}.

#[local] Existing Instance M_ret.
#[local] Existing Instance M_bind.
#[local] Existing Instance any_change_preorder.

Ltac and_then tac := eapply holds_bind; [typeclasses eauto | tac | ].
Ltac side := try typeclasses eauto; try (intros; exact I).

(** The chunks of an entry are those of some text, chunked with the
    default limit. *)
Definition from_chunker (e : index_entry) : Prop :=
  exists text, chunks e = chunk_context_default text.

Definition entries_from_chunker (w : world) : Prop :=
  forall id e, document_embeddings w !! id = Some e -> from_chunker e.

Definition keeps_entries : relation world :=
  fun w w' => entries_from_chunker w -> entries_from_chunker w'.

#[local] Instance keeps_entries_preorder : PreOrder keeps_entries.
Proof.
  split; [intros w Hw; exact Hw | intros w1 w2 w3 H12 H23 Hw; auto].
Qed.

Lemma keeps_entries_log ev w : keeps_entries w (log ev w).
Proof. intros Hw. exact Hw. Qed.

Lemma keeps_entries_db (f : world -> gmap Z Document) w :
  keeps_entries w (MkWorld (f w) (document_embeddings w) (trace w)).
Proof. intros Hw. exact Hw. Qed.

Lemma keeps_entries_delete id w :
  keeps_entries w
    (MkWorld (db w) (delete id (document_embeddings w)) (trace w)).
Proof.
  intros Hw id' e'. simpl. rewrite lookup_delete.
  case_decide; [discriminate | apply Hw].
Qed.

Lemma build_keeps_entries id text :
  holds keeps_entries (fun _ => True) (fun _ => True)
    (embeddings ← generate_embeddings (chunk_context_default text);
     store id (MkEntry (chunk_context_default text) embeddings)).
Proof.
  and_then ltac:(eapply holds_weaken with (Q' := fun _ => True)
                                          (E' := fun _ => True);
                 [apply (generate_embeddings_effect keeps_entries);
                  intros; apply keeps_entries_log
                 | auto | auto]).
  intros es _. apply holds_modify; side.
  intros w Hw id' e'. simpl. rewrite lookup_insert.
  case_decide; [intros [= <-]; exists text; reflexivity | apply Hw].
Qed.

Lemma chunk_content_from_chunker content :
  holds keeps_entries (fun cs => exists text, cs = chunk_context_default text)
        (fun _ => True) (chunk_content content).
Proof.
  unfold chunk_content. destruct content as [text|].
  - and_then ltac:(apply holds_emit with (Q := fun _ => True); side;
                   apply keeps_entries_log).
    intros _ _. apply holds_ret; side. exists text. reflexivity.
  - apply holds_throw; side.
Qed.

Lemma cached_index_keeps_entries id document :
  holds keeps_entries (fun _ => True) (fun _ => True)
        (cached_index id document).
Proof.
  unfold cached_index.
  and_then ltac:(apply holds_get_world with (Q := fun _ => True); side).
  intros w0 _.
  and_then idtac.
  - instantiate (1 := fun _ => True).
    destruct (document_embeddings w0 !! id).
    + apply holds_ret; side.
    + and_then ltac:(apply chunk_content_from_chunker).
      intros cs [text ->].
      pose proof (build_keeps_entries id text) as Hbuild.
      destruct (chunk_context_default text) as [|c cs];
        [apply holds_throw; side | exact Hbuild].
  - intros _ _.
    and_then ltac:(apply holds_get_world with (Q := fun _ => True); side).
    intros w1 _.
    destruct (document_embeddings w1 !! id).
    + apply holds_ret; side.
    + apply holds_throw; side.
Qed.

Lemma ask_question_keeps_entries fuel request :
  holds keeps_entries (fun _ => True) (fun _ => True)
        (ask_question fuel request).
Proof.
  unfold ask_question.
  apply holds_http_guard with (E1 := fun _ => True); auto; side.
  and_then ltac:(apply holds_get_world with (Q := fun _ => True); side).
  intros w0 _.
  destruct (db w0 !! document_id request).
  - and_then ltac:(apply cached_index_keeps_entries).
    intros e _.
    eapply holds_weaken;
      [apply (answer_from_index_holds keeps_entries);
       intros; apply keeps_entries_log | auto | auto].
  - apply holds_throw; side.
Qed.

Lemma upload_pdf_keeps_entries file_name timestamp save pdf id :
  holds keeps_entries (fun _ => True) (fun _ => True)
        (upload_pdf file_name timestamp save pdf id).
Proof.
  unfold upload_pdf.
  apply holds_http_guard with (E1 := fun _ => True); auto; side.
  destruct (negb _); [apply holds_throw; side|].
  and_then ltac:(apply holds_lift_os with (Q := fun _ => True); side).
  intros _ _.
  and_then idtac.
  { instantiate (1 := fun _ => True).
    destruct (extract_text_from_pdf pdf) as [[]|t];
      first [ apply holds_ret; side | apply holds_throw; side ]. }
  intros text _.
  and_then idtac.
  { instantiate (1 := fun _ => True). unfold db_add.
    and_then ltac:(apply holds_get_world with (Q := fun _ => True); side).
    intros w0 _.
    destruct (_ || _); [apply holds_throw; side|].
    and_then ltac:(apply holds_modify with (Q := fun _ => True); side;
                   intros;
                   apply (keeps_entries_db (fun w => <[id := _]> (db w)))).
    intros _ _. apply holds_ret; side. }
  intros id' _.
  and_then ltac:(apply holds_emit with (Q := fun _ => True); side;
                 apply keeps_entries_log).
  intros _ _. cbv zeta.
  and_then idtac.
  { instantiate (1 := fun _ => True).
    pose proof (build_keeps_entries id' text) as Hbuild.
    destruct (chunk_context_default text) as [|c cs];
      [apply holds_ret; side | exact Hbuild]. }
  intros _ _. apply holds_ret; side.
Qed.

Lemma delete_document_keeps_entries removal id :
  holds keeps_entries (fun _ => True) (fun _ => True)
        (delete_document removal id).
Proof.
  unfold delete_document.
  apply holds_http_guard with (E1 := fun _ => True); auto; side.
  and_then ltac:(apply holds_get_world with (Q := fun _ => True); side).
  intros w0 _.
  destruct (db w0 !! id) as [document|]; [|apply holds_throw; side].
  and_then idtac.
  { instantiate (1 := fun _ => True).
    destruct (filename document);
      [apply holds_ret; side | apply holds_throw; side]. }
  intros _ _.
  and_then ltac:(apply holds_lift_os with (Q := fun _ => True); side).
  intros _ _.
  and_then ltac:(apply holds_modify with (Q := fun _ => True); side;
                 intros; apply keeps_entries_delete).
  intros _ _.
  and_then ltac:(apply holds_modify with (Q := fun _ => True); side;
                 intros;
                 apply (keeps_entries_db (fun w => delete id (db w)))).
  intros _ _. apply holds_ret; side.
Qed.

Lemma reachable_entries_from_chunker w :
  reachable w -> entries_from_chunker w.
Proof.
  intros Hreach.
  induction Hreach as [ | w file_name timestamp save pdf id' _ IH
                        | w fuel request _ IH | w removal id' _ IH
                        | w db' _ IH ].
  - intros id' e'. simpl. rewrite lookup_empty. discriminate.
  - apply (upload_pdf_keeps_entries file_name timestamp save pdf id' w), IH.
  - apply (ask_question_keeps_entries fuel request w), IH.
  - apply (delete_document_keeps_entries removal id' w), IH.
  - exact IH.
Qed.

(** X17. In every state the service reaches, the chunks of every entry of
    the dictionary are the chunks [chunk_context] makes of some text with
    the limit of 512 words; so no entry has an empty list of chunks. *)
Theorem entries_hold_chunks (w : world) (id : Z) (e : index_entry) :
  reachable w ->
  document_embeddings w !! id = Some e ->
  (exists text, chunks e = chunk_context text 512) /\ chunks e <> [].
Proof.
  intros Hreach Hentry.
  destruct (reachable_entries_from_chunker w Hreach id e Hentry) as [text Ht].
  split; [exists text; exact Ht|].
  rewrite Ht. apply chunk_context_nonempty.
Qed.

Lemma mapM_lookup_length (cs : list str) (indices : list nat) texts :
  mapM (fun idx => match cs !! idx with
                   | Some c => inr c
                   | None => raise IndexError
                   end) indices = inr texts ->
  length texts = length indices.
Proof.
  revert texts. induction indices as [|i indices IH]; intros texts Hm.
  - injection Hm as <-. reflexivity.
  - rewrite mapM_result_cons in Hm.
    destruct (cs !! i) as [c|]; [|discriminate Hm].
    cbn [mbind result_bind] in Hm.
    destruct (mapM _ indices) as [e|rest]; [discriminate Hm|].
    cbn [mbind result_bind mret result_ret] in Hm. injection Hm as <-.
    simpl. f_equal. apply IH. reflexivity.
Qed.

Lemma retrieve_some_chunk question (cs : list str) es top_k :
  topk_contract ->
  cs <> [] ->
  0 < top_k ->
  holds any_change (fun texts : list str => texts <> []) (fun _ => True)
        (retrieve_relevant_chunks question cs es top_k).
Proof.
  intros Hc Hne Hk. unfold retrieve_relevant_chunks.
  apply holds_reraise; side.
  and_then ltac:(apply holds_get_now with (Q := fun _ => True); side).
  intros n _.
  and_then ltac:(apply holds_emit with (Q := fun _ => True); side).
  intros _ _.
  and_then ltac:(apply holds_lift_model with (Q := fun _ => True); side).
  intros q _.
  and_then ltac:(apply holds_lift_model with (Q := fun _ => True); side).
  intros scores _. cbv zeta.
  assert (Hpos : 0 < Z.min top_k (Z.of_nat (length cs))).
  { destruct cs; [congruence|]. simpl length. lia. }
  destruct (Z.eqb_spec (Z.min top_k (Z.of_nat (length cs))) 0) as [Hz|_];
    [lia|].
  and_then ltac:(apply holds_lift_model
                   with (Q := fun indices : list nat =>
                                Z.of_nat (length indices)
                                = Z.min top_k (Z.of_nat (length cs)));
                 side).
  - intros indices Htopk.
    destruct (Hc scores (Z.min top_k (Z.of_nat (length cs))))
      as [Hvalid Hinvalid].
    destruct (decide (0 <= Z.min top_k (Z.of_nat (length cs))
                      <= Z.of_nat (length scores))) as [Hin|Hout].
    + destruct (Hvalid Hin) as (indices' & Heq & Hlen & _).
      rewrite Heq in Htopk. injection Htopk as <-. exact Hlen.
    + rewrite (Hinvalid Hout) in Htopk. discriminate Htopk.
  - intros indices Hlen. apply holds_lift; side.
    intros texts Hm Hnil. apply mapM_lookup_length in Hm.
    cbv beta in Hlen. subst texts. simpl in Hm. lia.
Qed.

Lemma answer_from_index_confident fuel request e :
  topk_contract ->
  chunks e <> [] ->
  holds any_change (fun r => r_confidence r = 1) (fun _ => True)
        (answer_from_index fuel request e).
Proof.
  intros Hc Hne. unfold answer_from_index.
  and_then ltac:(apply retrieve_some_chunk; [exact Hc | exact Hne | lia]).
  intros rel Hrel. destruct rel as [|c rel]; [congruence|].
  and_then ltac:(eapply holds_weaken with (Q' := fun _ => True)
                                          (E' := fun _ => True);
                 [apply (generate_fluent_answer_holds any_change);
                  intros; exact I
                 | auto | auto]).
  intros answer _. apply holds_ret; side. reflexivity.
Qed.

(** X18. When [torch.topk] keeps its documented contract, every response
    [ask_question] returns in a reachable state has confidence 1 and one
    model answer: the branch of lines 214-223, which answers with
    confidence 0 when no chunk was retrieved, is never taken. *)
Theorem zero_confidence_branch_unreachable (fuel : nat)
    (request : QuestionRequest) (w : world) (r : QuestionResponse) :
  topk_contract ->
  reachable w ->
  fst (ask_question fuel request w) = Done r ->
  r_confidence r = 1 /\
  r_model_answers r = [(u "t5_qa_model", r_answer r, 1)].
Proof.
  intros Hc Hreach Hdone.
  destruct (db w !! document_id request) as [document|] eqn:Hdb.
  2:{ rewrite (ask_question_missing _ _ _ Hdb) in Hdone. discriminate Hdone. }
  rewrite (ask_question_found _ _ _ _ Hdb) in Hdone.
  destruct (ask_question_body fuel request document w) as [_ Hshape].
  rewrite Hdone in Hshape.
  assert (Hconf : r_confidence r = 1).
  { apply http_guard_done in Hdone.
    unfold mbind, M_bind in Hdone.
    pose proof (cached_index_keeps_entries (document_id request) document w)
      as [Hkeep _].
    pose proof (cached_index_frame (document_id request) document w)
      as (_ & _ & _ & Hentry).
    destruct (cached_index (document_id request) document w)
      as [[e|x] wc]; cbn [fst snd] in *; try discriminate Hdone.
    specialize (Hkeep (reachable_entries_from_chunker w Hreach)
                  (document_id request) e (Hentry e eq_refl)).
    destruct Hkeep as [text Ht].
    destruct (answer_from_index_confident fuel request e Hc) with (w := wc)
      as [_ Hq].
    { rewrite Ht. apply chunk_context_nonempty. }
    rewrite Hdone in Hq. exact Hq. }
  split; [exact Hconf|].
  destruct Hshape as (_ & _ & [(_ & Hzero & _) | (_ & _ & Hanswers)]).
  - rewrite Hconf in Hzero. discriminate Hzero.
  - exact Hanswers.
Qed.

End InvariantsFurther.

(** ** A text that fits into one chunk *)

Section ChunkerFits.
Context `{UnicodeData}.

Lemma word_count_join_app_le (a b : list str) :
  word_count (join (u " ") a) <= word_count (join (u " ") (a ++ b)).
Proof.
  induction b as [|x b IH] using rev_ind.
  - rewrite app_nil_r. lia.
  - rewrite app_assoc, word_count_join_snoc. unfold word_count in *. lia.
Qed.

Lemma chunk_fold_fits m sentences cur :
  word_count (join (u " ") (cur ++ sentences)) <= m ->
  fold_left (chunk_step m) sentences
            (ChunkLoop [] cur (word_count (join (u " ") cur)))
  = ChunkLoop [] (cur ++ sentences)
              (word_count (join (u " ") (cur ++ sentences))).
Proof.
  revert cur. induction sentences as [|s sentences IH]; intros cur Hfit.
  - rewrite app_nil_r. reflexivity.
  - replace (cur ++ s :: sentences) with ((cur ++ [s]) ++ sentences) in *
      by (rewrite <- app_assoc; reflexivity).
    pose proof (word_count_join_app_le (cur ++ [s]) sentences) as Hle.
    rewrite word_count_join_snoc in Hle.
    specialize (IH (cur ++ [s]) Hfit).
    rewrite word_count_join_snoc in IH.
    cbn [fold_left]. rewrite <- IH. f_equal.
    unfold chunk_step. cbn [lp_chunks lp_current_chunk lp_current_length].
    change (Z.of_nat (length (split s))) with (word_count s).
    destruct (Z.gtb_spec (word_count (join (u " ") cur) + word_count s) m)
      as [Hgt|_]; [lia | reflexivity].
Qed.

(** X19. A text of at most [max_chunk_size] words is one chunk: its
    sentences joined with single spaces. *)
Theorem chunk_context_single_chunk (context : str) (max_chunk_size : Z) :
  word_count context <= max_chunk_size ->
  chunk_context context max_chunk_size
  = [join (u " ") (Re.split false sentence_boundary context)].
Proof.
  intros Hfit. unfold chunk_context, chunk_sentences.
  pose proof (re_split_nonempty false sentence_boundary context) as Hne.
  pose proof (re_split_words sentence_boundary context
                sentence_boundary_ws_pattern) as Hwords.
  set (sentences := Re.split false sentence_boundary context) in *.
  change (ChunkLoop [] [] 0)
    with (ChunkLoop [] [] (word_count (join (u " ") []))).
  rewrite chunk_fold_fits.
  - cbn [lp_chunks lp_current_chunk app].
    destruct sentences; [congruence | reflexivity].
  - cbn [app]. unfold word_count in *. rewrite Hwords. exact Hfit.
Qed.

End ChunkerFits.

(** ** The text of a document *)

Section TextFurther.
Context `{UnicodeData}.

(** What [re.sub(r'\s+', ' ', text)] does: each run of whitespace becomes
    one space. [in_run] tells that the previous character was whitespace. *)
Fixpoint squeeze (in_run : bool) (s : str) : str :=
  match s with
  | [] => []
  | c :: rest =>
      if isspace c
      then if in_run then squeeze true rest else ch " " :: squeeze true rest
      else c :: squeeze false rest
  end.

Definition blank (s : str) : Prop := Forall (fun c => isspace c = true) s.

Lemma squeeze_lstrip s : squeeze true s = squeeze false (lstrip s).
Proof.
  induction s as [|c s IH]; [reflexivity|].
  simpl. destruct (isspace c) eqn:Hc; [exact IH|].
  simpl. rewrite Hc. reflexivity.
Qed.

Lemma finditer_go_white n :
  forall after before seg,
    (length after <= n)%nat ->
    flat_map (fun pm : str * Re.mstate =>
                fst pm ++ Re.expand (Re.tlit (u " ")) (snd pm))
             (Re.finditer_go false (Re.Plus white) before after 0 seg).1
    ++ (Re.finditer_go false (Re.Plus white) before after 0 seg).2
    = rev seg ++ squeeze false after.
Proof.
  induction n as [|n IH]; intros after before seg Hlen.
  - destruct after; [|simpl in Hlen; lia].
    cbn [Re.finditer_go].
    rewrite (plus_white_match before [] []). simpl.
      rewrite app_nil_r. reflexivity.
  - destruct after as [|c rest].
    { cbn [Re.finditer_go].
      rewrite (plus_white_match before [] []). simpl.
      rewrite app_nil_r. reflexivity. }
    simpl in Hlen. cbn [Re.finditer_go].
    pose proof (plus_white_match before (c :: rest) []) as Hm.
    cbv beta iota in Hm.
    cbn [squeeze]. destruct (isspace c) eqn:Hc.
    + destruct Hm as [b' ->]. cbn [Re.m_after].
      destruct (lstrip_prefix rest) as (p & Hp & Hws).
      assert (Hw : (length (c :: rest) - length (lstrip rest))%nat
                   = S (length p)).
      { rewrite Hp at 1. simpl. rewrite length_app. lia. }
      rewrite Hw.
      replace (Re.finditer_go false (Re.Plus white) (c :: before) rest
                 (length p) [])
        with (Re.finditer_go false (Re.Plus white) (rev p ++ c :: before)
                (lstrip rest) 0 [])
        by (rewrite <- finditer_go_skip, <- Hp; reflexivity).
      specialize (IH (lstrip rest) (rev p ++ c :: before) []).
      pose proof (lstrip_length rest) as Hl.
      destruct (Re.finditer_go false (Re.Plus white) (rev p ++ c :: before)
                  (lstrip rest) 0 []) as [ms tl].
      cbn [fst snd flat_map] in IH |- *.
      rewrite <- !app_assoc, IH by lia.
      rewrite squeeze_lstrip. reflexivity.
    + rewrite Hm. specialize (IH rest (c :: before) (c :: seg)).
      rewrite IH by lia. simpl. rewrite <- app_assoc. reflexivity.
Qed.

Lemma sub_white_squeeze s :
  Re.sub false (Re.Plus white) (Re.tlit (u " ")) s = squeeze false s.
Proof.
  unfold Re.sub, Re.finditer.
  pose proof (finditer_go_white (length s) s [] [] (Nat.le_refl _)) as Hw.
  destruct (Re.finditer_go false (Re.Plus white) [] s 0 []) as [ms tl].
  exact Hw.
Qed.

Lemma squeeze_blank b s : blank s -> blank (squeeze b s).
Proof.
  intros Hs. revert b. induction Hs as [|c s Hc _ IH]; intros b; [constructor|].
  simpl. rewrite Hc. destruct b; [apply IH|].
  constructor; [reflexivity | apply IH].
Qed.

Lemma squeeze_keeps b s c :
  c ∈ s -> isspace c = false -> c ∈ squeeze b s.
Proof.
  intros Hin Hc. revert b.
  induction s as [|x s IH]; intros b; [inversion Hin|].
  apply elem_of_cons in Hin as [<- | Hin].
  - simpl. rewrite Hc. left.
  - simpl. destruct (isspace x); [destruct b|]; try right; apply IH, Hin.
Qed.

Lemma lstrip_blank s : blank s -> lstrip s = [].
Proof.
  intros Hs. induction Hs as [|c s Hc _ IH]; [reflexivity|].
  simpl. rewrite Hc. exact IH.
Qed.

Lemma lstrip_keeps s c : c ∈ s -> isspace c = false -> c ∈ lstrip s.
Proof.
  intros Hin Hc. induction s as [|x s IH]; [inversion Hin|].
  simpl. destruct (isspace x) eqn:Hx; [|exact Hin].
  apply elem_of_cons in Hin as [-> | Hin]; [congruence | apply IH, Hin].
Qed.

Lemma strip_blank s : blank s -> strip s = [].
Proof. intros Hs. unfold strip. rewrite (lstrip_blank s Hs). reflexivity. Qed.

Lemma elem_of_rev (l : str) c : c ∈ l -> c ∈ rev l.
Proof. rewrite !list_elem_of_In. apply in_rev. Qed.

Lemma strip_keeps s c : c ∈ s -> isspace c = false -> c ∈ strip s.
Proof.
  intros Hin Hc. unfold strip.
  apply elem_of_rev, lstrip_keeps; [|exact Hc].
  apply elem_of_rev, lstrip_keeps; assumption.
Qed.

Lemma join_keeps sep (l : list str) p c : p ∈ l -> c ∈ p -> c ∈ join sep l.
Proof.
  intros Hp Hc. induction l as [|x l IH]; [inversion Hp|].
  destruct l as [|y l].
  - apply elem_of_cons in Hp as [-> | Hp]; [exact Hc | inversion Hp].
  - change (join sep (x :: y :: l)) with (x ++ sep ++ join sep (y :: l)).
    apply elem_of_cons in Hp as [-> | Hp].
    + apply elem_of_app. left. exact Hc.
    + apply elem_of_app. right. apply elem_of_app. right. apply IH, Hp.
Qed.

Lemma not_blank_witness s :
  ~ blank s -> exists c, c ∈ s /\ isspace c = false.
Proof.
  induction s as [|x s IH]; intros Hnb; [exfalso; apply Hnb; constructor|].
  destruct (isspace x) eqn:Hx.
  - destruct IH as (c & Hin & Hc).
    { intros Hs. apply Hnb. constructor; assumption. }
    exists c. split; [right; exact Hin | exact Hc].
  - exists x. split; [left | exact Hx].
Qed.

Lemma blank_blocks_vanish (D : forall t : str, Decision (t <> []))
    (blocks : list str) :
  Forall blank blocks ->
  @filter str (list str) _ (fun t : str => t <> []) D
          (map (fun t => strip (Re.sub false (Re.Plus white)
                                  (Re.tlit (u " ")) t)) blocks)
  = [].
Proof.
  intros Hall. induction Hall as [|b blocks Hb _ IH]; [reflexivity|].
  cbn [map]. rewrite filter_cons_False; [exact IH|].
  intros Hne. apply Hne. rewrite sub_white_squeeze.
  apply strip_blank, squeeze_blank, Hb.
Qed.

Lemma some_block_shows (D : forall t : str, Decision (t <> []))
    (blocks : list str) :
  (exists b c, b ∈ blocks /\ c ∈ b /\ isspace c = false) ->
  strip (join [0x0A%N]
           (@filter str (list str) _ (fun t : str => t <> []) D
                    (map (fun t => strip (Re.sub false (Re.Plus white)
                                            (Re.tlit (u " ")) t)) blocks)))
  <> [].
Proof.
  intros (b & c & Hb & Hin & Hc).
  set (norm := fun t => strip (Re.sub false (Re.Plus white)
                                 (Re.tlit (u " ")) t)).
  assert (Hcn : c ∈ norm b).
  { unfold norm. rewrite sub_white_squeeze.
    apply strip_keeps; [apply squeeze_keeps|]; assumption. }
  assert (Hct : c ∈ strip (join [0x0A%N]
                             (@filter str (list str) _
                                      (fun t : str => t <> []) D
                                      (map norm blocks)))).
  { apply strip_keeps; [|exact Hc].
    apply (join_keeps _ _ (norm b)); [|exact Hcn].
    apply list_elem_of_filter. split.
    - intros Hnil. rewrite Hnil in Hcn. inversion Hcn.
    - apply list_elem_of_In, in_map, list_elem_of_In, Hb. }
  intros Hnil. rewrite Hnil in Hct. inversion Hct.
Qed.

(** X20. [extract_text_from_pdf] raises the [ValueError] with the message
    [No text content found in PDF] when every block of the document
    consists of whitespace only (or there is no block), and returns a text
    as soon as one block has a character that is not whitespace. *)
Theorem extract_text_from_pdf_rejects_blank (blocks : list str) :
  (Forall blank blocks ->
   extract_text_from_pdf (inr blocks)
   = inl (ValueError (u "No text content found in PDF"))) /\
  ((exists b c, b ∈ blocks /\ c ∈ b /\ isspace c = false) ->
   exists text, extract_text_from_pdf (inr blocks) = inr text).
Proof.
  unfold extract_text_from_pdf. cbn [mbind result_bind]. cbv zeta.
  split.
  - intros Hall. rewrite (blank_blocks_vanish _ blocks Hall). reflexivity.
  - intros Hsome. pose proof (some_block_shows _ blocks Hsome) as Hne.
    destruct (strip _) as [|x rest]; [congruence|]. eauto.
Qed.

End TextFurther.

(** ** The further properties on runs *)



(** An embedder that fails. *)
Definition deaf : Models := Demo.models Demo.earlier_first false Demo.long_reply.

(** The response to the question about the capital. *)
Definition capital_response : QuestionResponse :=
  MkResponse (PyStr (u "The capital of France is Paris.")) 1 1
    (u "What is the capital?")
    [(u "t5_qa_model", PyStr (u "The capital of France is Paris."), 1)].

Section FurtherRuns.
Import Latin1.

(** X2 on a run: with the limit -1, two sentences are two chunks. *)
Lemma chunk_context_negative_limit_witness :
  chunk_context (H := Latin1.ucd) (u "One two. Three.") (-1)
  = Re.split false sentence_boundary (u "One two. Three.").
Proof.
  apply (chunk_context_negative_limit (H := Latin1.ucd)). lia.
Defined.

(** X5 on a run: the one text retrieved is the first chunk. *)
Lemma retrieve_returns_given_chunks_witness :
  u "a" ∈ [u "a"; u "b b"].
Proof.
  apply (retrieve_returns_given_chunks (H0 := Demo.talkative)
           (u "q") [u "a"; u "b b"] [1; 2] 1 initial [u "a"]).
  - vm_compute. reflexivity.
  - constructor.
Defined.


(** X9 on a run: the response to the question about the capital. *)
Lemma ask_question_response_witness :
  well_formed_response (H := Latin1.ucd)
    (MkRequest 1 (u "What is the capital?")) capital_response.
Proof.
  apply (ask_question_response (H := Latin1.ucd) (H0 := Demo.talkative)
           1 (MkRequest 1 (u "What is the capital?")) Demo.one_document).
  vm_compute. reflexivity.
Defined.

(** X13 on a run: an upload while the embedder fails. *)
Lemma upload_pdf_keeps_row_on_failure_witness :
  upload_pdf (H := Latin1.ucd) (H0 := deaf)
    (u "a.pdf") (u "0") (Some tt) (inr [u "Hello world."; u "Bye."]) 1 initial
  = (Raised upload_failed,
     after_upload 1 (uploaded_document (u "a.pdf") (u "0") (u "Hello world. Bye."))
       (u "Hello world. Bye.") None initial)
  /\ db (snd (upload_pdf (H := Latin1.ucd) (H0 := deaf)
               (u "a.pdf") (u "0") (Some tt)
               (inr [u "Hello world."; u "Bye."]) 1 initial))
       !! 1
     = Some (uploaded_document (u "a.pdf") (u "0") (u "Hello world. Bye."))
  /\ document_embeddings
       (snd (upload_pdf (H := Latin1.ucd) (H0 := deaf)
               (u "a.pdf") (u "0") (Some tt)
               (inr [u "Hello world."; u "Bye."]) 1 initial))
     = document_embeddings initial.
Proof.
  apply (upload_pdf_keeps_row_on_failure (H := Latin1.ucd) (H0 := deaf)
           (u "a.pdf") (u "0") (Some tt) (inr [u "Hello world."; u "Bye."])
           1 initial (u "Hello world. Bye.")).
  - reflexivity.
  - eexists. reflexivity.
  - vm_compute. reflexivity.
  - vm_compute. reflexivity.
  - reflexivity.
Defined.

(** X14 on a run: a question right after the upload. *)
Lemma upload_then_ask_builds_nothing_witness :
  quiet
    (snd (upload_pdf (H := Latin1.ucd) (H0 := Demo.talkative)
            (u "a.pdf") (u "0") (Some tt) (inr [u "Hello world."; u "Bye."]) 1 initial))
    (snd (ask_question (H := Latin1.ucd) 1 (MkRequest 1 (u "Who?"))
            (snd (upload_pdf (H := Latin1.ucd) (H0 := Demo.talkative)
                    (u "a.pdf") (u "0") (Some tt) (inr [u "Hello world."; u "Bye."])
                    1 initial)))).
Proof.
  apply (upload_then_ask_builds_nothing (H := Latin1.ucd)
           (H0 := Demo.talkative)
           (u "a.pdf") (u "0") (Some tt) (inr [u "Hello world."; u "Bye."]) 1 initial
           (1, u "a.pdf") 1 (u "Who?")).
  vm_compute. reflexivity.
Defined.

(** X15 on a run: the one document is deleted, then asked about. *)
Lemma delete_then_ask_witness :
  fst (delete_document (Some tt) 1 Demo.one_document)
  = Done (u "Document deleted successfully") /\
  db (snd (delete_document (Some tt) 1 Demo.one_document)) !! 1 = None /\
  document_embeddings (snd (delete_document (Some tt) 1 Demo.one_document))
    !! 1 = None /\
  (forall id', id' <> 1 ->
     db (snd (delete_document (Some tt) 1 Demo.one_document)) !! id'
     = db Demo.one_document !! id' /\
     document_embeddings (snd (delete_document (Some tt) 1 Demo.one_document))
       !! id'
     = document_embeddings Demo.one_document !! id') /\
  ask_question (H := Latin1.ucd) 1 (MkRequest 1 (u "Who?"))
    (snd (delete_document (Some tt) 1 Demo.one_document))
  = (Raised not_found, snd (delete_document (Some tt) 1 Demo.one_document)).
Proof.
  destruct (delete_then_ask (H := Latin1.ucd) (H0 := Demo.talkative)
              (Some tt) 1 Demo.one_document
              (MkDocument (Some (u "0_a.pdf")) (Some (u "a.pdf"))
                 (Some (u "Paris is the capital. It is large.")))
              1 (u "Who?")) as [_ Hdeleted].
  - vm_compute. reflexivity.
  - apply Hdeleted; eexists; reflexivity.
Defined.

(** X16 on a run: an upload, undone. *)
Lemma upload_then_delete_witness :
  fst (delete_document (Some tt) 1
         (snd (upload_pdf (H := Latin1.ucd) (H0 := Demo.talkative)
                 (u "a.pdf") (u "0") (Some tt)
                 (inr [u "Hello world."; u "Bye."]) 1 initial)))
  = Done (u "Document deleted successfully") /\
  db (snd (delete_document (Some tt) 1
             (snd (upload_pdf (H := Latin1.ucd) (H0 := Demo.talkative)
                     (u "a.pdf") (u "0") (Some tt)
                     (inr [u "Hello world."; u "Bye."]) 1 initial))))
  = db (initial (H0 := Demo.talkative)) /\
  document_embeddings
    (snd (delete_document (Some tt) 1
            (snd (upload_pdf (H := Latin1.ucd) (H0 := Demo.talkative)
                    (u "a.pdf") (u "0") (Some tt)
                    (inr [u "Hello world."; u "Bye."]) 1 initial))))
  = delete 1 (document_embeddings (initial (H0 := Demo.talkative))).
Proof.
  apply (upload_then_delete (H := Latin1.ucd) (H0 := Demo.talkative)
           (u "a.pdf") (u "0") (Some tt) (inr [u "Hello world."; u "Bye."])
           1 initial (1, u "a.pdf")).
  vm_compute. reflexivity.
Defined.

(** X17 on a run: the entry stored by one upload. *)
Lemma entries_hold_chunks_witness :
  (exists text,
     chunks Demo.hello_entry = chunk_context (H := Latin1.ucd) text 512) /\
  chunks Demo.hello_entry <> [].
Proof.
  apply (entries_hold_chunks (H := Latin1.ucd) (H0 := Demo.talkative)
           (snd (upload_pdf (H := Latin1.ucd) (u "a.pdf") (u "0") (Some tt)
                   (inr [u "Hello world."; u "Bye."]) 1 initial))
           1 Demo.hello_entry).
  - apply reach_upload, reach_initial.
  - vm_compute. reflexivity.
Defined.

(** X18 on a run: the question about the capital. *)
Lemma zero_confidence_branch_unreachable_witness :
  r_confidence capital_response = 1 /\
  r_model_answers capital_response
  = [(u "t5_qa_model", r_answer capital_response, 1)].
Proof.
  apply (zero_confidence_branch_unreachable (H := Latin1.ucd)
           (H0 := Demo.talkative)
           1 (MkRequest 1 (u "What is the capital?")) Demo.one_document).
  - apply earlier_first_contract.
  - exact (reach_external initial _ reach_initial).
  - vm_compute. reflexivity.
Defined.

(** X19 on a run: three words under the limit 3. *)
Lemma chunk_context_single_chunk_witness :
  chunk_context (u "One two. Three.") 3
  = [join (u " ") (Re.split false sentence_boundary (u "One two. Three."))].
Proof.
  apply (chunk_context_single_chunk (H := Latin1.ucd)).
  vm_compute. discriminate.
Defined.

End FurtherRuns.
